(** * Healiofy: appointment-status synchronisation

    A shallow embedding of the client-side appointment service
    ([heal/src/services/appointmentService], shipped in the same file as the
    profile page) and of the cancel guard of [AppointmentsList.tsx], with the
    properties of the offline queue, the endpoint fallback and the cache.

    How the code is read:
    - the module variables ([pendingOperations], [isProcessing],
      [lastSuccessfulEndpoint], [MOCK_DATA]) and the browser state the code
      reads ([localStorage], [navigator.onLine], the clock) make one record,
      passed from statement to statement;
    - an [async] function is given twice where it matters: run from its
      call to its end, and as a coroutine that stops at an [await] and goes
      on when the request settles; the two are proved to agree;
    - the backend is a function from the requests made so far and the
      request at hand to the settlement of its promise, so it may answer the
      same request differently at different times; the answer to a status
      request is untyped, so its body may be missing, and then
      [response.data.data] throws inside the [try] of the request;
    - ISO-8601 strings are held as the time values they denote, a
      [localStorage] entry as the value [JSON.parse] gives for it, and writes
      to [localStorage] succeed; the local clock arithmetic of the
      cancellation deadline is taken from the environment;
    - [MOCK_DATA.appointments] is a finite map: the model follows the
      object of the code on the keys that are not names of members of
      [Object.prototype] ([inheritedMembers]), and the statements about the
      content of the table say so;
    - console output is left out. *)

From Stdlib Require Import ZArith Lia Ascii.
From stdpp Require Import base tactics option list strings pretty gmap.

Local Open Scope Z_scope.

(** ** JavaScript strings

    A string is a sequence of code units; the model keeps the code units
    0..255, which Rocq's [string] holds. *)
Module Js.

(** White space and line terminators removed by [String.prototype.trim]
    (TAB, LF, VT, FF, CR, SP, NBSP among the code units below 256). *)
Definition isWhiteSpace (c : ascii) : bool :=
  match c with
  | "009" | "010" | "011" | "012" | "013" | " " | "160" => true
  | _ => false
  end%char.

Fixpoint dropWhile {A} (p : A → bool) (l : list A) : list A :=
  match l with
  | [] => []
  | x :: l' => if p x then dropWhile p l' else l
  end.

Definition trimChars (l : list ascii) : list ascii :=
  rev (dropWhile isWhiteSpace (rev (dropWhile isWhiteSpace l))).

(** [s.trim()] *)
Definition trim (s : string) : string :=
  String.string_of_list_ascii (trimChars (String.list_ascii_of_string s)).

(** [s.length] *)
Definition length (s : string) : nat := String.length s.

(** Truthiness of a string: only the empty string is falsy. *)
Definition truthy (s : string) : bool :=
  match s with EmptyString => false | _ => true end.

(** The character class [[a-f0-9]]. *)
Definition isHexLower (c : ascii) : bool :=
  let n := nat_of_ascii c in
  ((97 <=? n)%nat && (n <=? 102)%nat) || ((48 <=? n)%nat && (n <=? 57)%nat).

(** A match of [/\/[a-f0-9]{24}(?:\/|$)/] that starts at the head of [s]:
    the number of code units it consumes. The alternative ["/"] is tried
    before the end of input. *)
Definition matchIdAt (s : list ascii) : option nat :=
  match s with
  | "/"%char :: rest =>
      if (24 <=? List.length rest)%nat && forallb isHexLower (take 24 rest) then
        match drop 24 rest with
        | "/"%char :: _ => Some 26%nat
        | [] => Some 25%nat
        | _ => None
        end
      else None
  | _ => None
  end.

(** The leftmost match: the text before it, the matched text and the text
    after it. [seen] is the text already passed over, reversed. *)
Fixpoint findId (seen s : list ascii) : option (list ascii * list ascii * list ascii) :=
  match matchIdAt s with
  | Some n => Some (rev seen, take n s, drop n s)
  | None =>
      match s with
      | [] => None
      | c :: s' => findId (c :: seen) s'
      end
  end.

(** [GetSubstitution] for a pattern without capture groups: ["$$"] is a
    dollar sign, ["$&"] the match, ["$`"] the text before it, ["$'"] the
    text after it; any other use of ["$"] stays as written. *)
Fixpoint getSubstitution (matched before after template : list ascii) : list ascii :=
  match template with
  | [] => []
  | c :: t =>
      if bool_decide (c = "$"%char) then
        match t with
        | [] => [c]
        | d :: t' =>
            if bool_decide (d = "$"%char) then
              "$"%char :: getSubstitution matched before after t'
            else if bool_decide (d = "&"%char) then
              matched ++ getSubstitution matched before after t'
            else if bool_decide (d = "`"%char) then
              before ++ getSubstitution matched before after t'
            else if bool_decide (d = "'"%char) then
              after ++ getSubstitution matched before after t'
            else c :: getSubstitution matched before after t
        end
      else c :: getSubstitution matched before after t
  end.

(** [url.replace(/\/[a-f0-9]{24}(?:\/|$)/, template)]: the first match is
    replaced, a string without a match is returned as it is. *)
Definition replaceId (url template : string) : string :=
  let s := String.list_ascii_of_string url in
  match findId [] s with
  | None => url
  | Some (before, matched, after) =>
      String.string_of_list_ascii
        (before ++ getSubstitution matched before after (String.list_ascii_of_string template) ++ after)
  end.

End Js.

(** ** Data model *)

Inductive Status := pending | confirmed | cancelled.

#[global] Instance Status_eq_dec : EqDecision Status.
Proof. solve_decision. Defined.

(** [doctorId: Doctor | string]. Of a populated doctor the list view reads
    the name and the specialty. *)
Inductive DoctorRef :=
| DoctorId (id : string)
| DoctorObject (name specialty : string).

(** [interface Appointment]. The ISO-8601 strings [date], [createdAt] and
    [updatedAt] are held as the time value they denote (milliseconds since
    the epoch). *)
Record Appointment := {
  _id : string;
  doctorId : DoctorRef;
  userId : string;
  date : Z;
  status : Status;
  createdAt : Z;
  updatedAt : Z
}.

(** [interface PendingOperation], the timestamp again as a time value. *)
Record PendingOperation := {
  op_id : string;
  op_status : Status;
  op_timestamp : Z
}.

(** An entry of the endpoint lists and the value of
    [lastSuccessfulEndpoint]. *)
Record Endpoint := { url : string; method : string }.

(** The argument of an [axios] call; [data] is the [{ status }] body, absent
    for the list request. *)
Record Request := {
  req_method : string;
  req_url : string;
  req_headers : list (string * string);
  req_data : option Status
}.

(** A rejected [axios] promise: the server answered with a status outside
    2xx ([error.response]), no answer arrived ([error.request]), or the
    request could not be set up. *)
Inductive AxiosError :=
| ResponseError (code : Z) (error : option string) (config_url : option string)
| RequestError
| SetupError (message : string).

(** A settled [axios] promise. For the typed list request [data] is
    [response.data.data]; for a status request, whose answer is untyped, it
    is the body [response.data], see [Body]. *)
Inductive AxiosResult (T : Type) :=
| Resolved (data : T)
| Rejected (error : AxiosError).
Arguments Resolved {T} data.
Arguments Rejected {T} error.

(** The body of the answer to a status request: [NoBody] is [null] or
    [undefined], on which [response.data.data] throws a [TypeError];
    [WithData data] is any other value, [data] being its member [data],
    an appointment or nothing. *)
Inductive Body :=
| NoBody
| WithData (data : option Appointment).

(** A value thrown inside [updateAppointmentStatus]. *)
Inductive Exception :=
| Error (message : string)
| AxiosException (error : AxiosError).

(** How a call of [updateAppointmentStatus] ends. *)
Inductive Outcome :=
| Returned (appointment : option Appointment)
| Threw (message : string).

(** A [localStorage] entry read back through [JSON.parse]: [Text raw] is a
    text the parser rejects (or the empty text), [Json value] the text of
    [JSON.stringify value]. *)
Inductive Item (A : Type) :=
| Text (raw : string)
| Json (value : A).
Arguments Text {A} raw.
Arguments Json {A} value.

Record LocalStorage := {
  token : option string;
  pendingAppointmentOperations : option (Item (list PendingOperation));
  cachedAppointments : option (Item (list Appointment))
}.

(** A pass of [syncPendingOperations] suspended at the [await] of
    [syncAppointmentToDatabase]: the loop variables of both loops and the
    settlement the request in flight will have. *)
Record Pass := {
  operation : PendingOperation;
  remaining : list PendingOperation;
  operationsToRemove : list string;
  headers : list (string * string);
  endpoint : Endpoint;
  endpoints : list Endpoint;
  lastError : option Exception;
  settlement : AxiosResult Body
}.

(** The module state of the service, the browser state it reads, and two
    records kept for the statements: the requests handed to [axios] so far
    and the passes that are suspended. *)
Record State := {
  pendingOperations : list PendingOperation;
  isProcessing : bool;
  lastSuccessfulEndpoint : option Endpoint;
  MOCK_DATA : gmap string Appointment;
  localStorage : LocalStorage;
  onLine : bool;
  now : Z;
  requests : list Request;
  passes : list Pass
}.

(** What the service takes from outside: the base URL and the header
    builder of [authService], the cancellation window of
    [appointmentConfig], the time zone of the browser, as the function
    [hoursEarlier d h] that gives the time value of the date [d] after
    [d.setHours(d.getHours() - h)], and the backend, which settles a request
    knowing the requests made before it. *)
Class Environment := {
  API_URL : string;
  authHeader : LocalStorage → list (string * string);
  CANCELLATION_WINDOW_HOURS : Z;
  hoursEarlier : Z → Z → Z;
  respond : list Request → Request → AxiosResult Body;
  respondList : list Request → Request → AxiosResult (list Appointment)
}.

(** ** Assignments to the state *)

Definition set_pendingOperations (v : list PendingOperation) (st : State) : State :=
  {| pendingOperations := v; isProcessing := isProcessing st;
     lastSuccessfulEndpoint := lastSuccessfulEndpoint st; MOCK_DATA := MOCK_DATA st;
     localStorage := localStorage st; onLine := onLine st; now := now st;
     requests := requests st; passes := passes st |}.

Definition set_isProcessing (v : bool) (st : State) : State :=
  {| pendingOperations := pendingOperations st; isProcessing := v;
     lastSuccessfulEndpoint := lastSuccessfulEndpoint st; MOCK_DATA := MOCK_DATA st;
     localStorage := localStorage st; onLine := onLine st; now := now st;
     requests := requests st; passes := passes st |}.

Definition set_lastSuccessfulEndpoint (v : option Endpoint) (st : State) : State :=
  {| pendingOperations := pendingOperations st; isProcessing := isProcessing st;
     lastSuccessfulEndpoint := v; MOCK_DATA := MOCK_DATA st;
     localStorage := localStorage st; onLine := onLine st; now := now st;
     requests := requests st; passes := passes st |}.

Definition set_MOCK_DATA (v : gmap string Appointment) (st : State) : State :=
  {| pendingOperations := pendingOperations st; isProcessing := isProcessing st;
     lastSuccessfulEndpoint := lastSuccessfulEndpoint st; MOCK_DATA := v;
     localStorage := localStorage st; onLine := onLine st; now := now st;
     requests := requests st; passes := passes st |}.

Definition set_localStorage (v : LocalStorage) (st : State) : State :=
  {| pendingOperations := pendingOperations st; isProcessing := isProcessing st;
     lastSuccessfulEndpoint := lastSuccessfulEndpoint st; MOCK_DATA := MOCK_DATA st;
     localStorage := v; onLine := onLine st; now := now st;
     requests := requests st; passes := passes st |}.

Definition set_onLine (v : bool) (st : State) : State :=
  {| pendingOperations := pendingOperations st; isProcessing := isProcessing st;
     lastSuccessfulEndpoint := lastSuccessfulEndpoint st; MOCK_DATA := MOCK_DATA st;
     localStorage := localStorage st; onLine := v; now := now st;
     requests := requests st; passes := passes st |}.

Definition set_now (v : Z) (st : State) : State :=
  {| pendingOperations := pendingOperations st; isProcessing := isProcessing st;
     lastSuccessfulEndpoint := lastSuccessfulEndpoint st; MOCK_DATA := MOCK_DATA st;
     localStorage := localStorage st; onLine := onLine st; now := v;
     requests := requests st; passes := passes st |}.

Definition set_requests (v : list Request) (st : State) : State :=
  {| pendingOperations := pendingOperations st; isProcessing := isProcessing st;
     lastSuccessfulEndpoint := lastSuccessfulEndpoint st; MOCK_DATA := MOCK_DATA st;
     localStorage := localStorage st; onLine := onLine st; now := now st;
     requests := v; passes := passes st |}.

Definition set_passes (v : list Pass) (st : State) : State :=
  {| pendingOperations := pendingOperations st; isProcessing := isProcessing st;
     lastSuccessfulEndpoint := lastSuccessfulEndpoint st; MOCK_DATA := MOCK_DATA st;
     localStorage := localStorage st; onLine := onLine st; now := now st;
     requests := requests st; passes := v |}.

(** ** [localStorage] *)

(** [if (item)] on the result of [getItem]: [null] and the empty text are
    falsy. *)
Definition itemTruthy {A} (item : option (Item A)) : bool :=
  match item with
  | None => false
  | Some (Text raw) => Js.truthy raw
  | Some (Json _) => true
  end.

(** [JSON.parse]; [None] is the [SyntaxError]. *)
Definition JSON_parse {A} (item : Item A) : option A :=
  match item with
  | Text _ => None
  | Json value => Some value
  end.

(** [if (!token)] *)
Definition tokenMissing (ls : LocalStorage) : bool :=
  match token ls with
  | None => true
  | Some t => negb (Js.truthy t)
  end.

(** [localStorage.removeItem('token')] *)
Definition removeToken (ls : LocalStorage) : LocalStorage :=
  {| token := None;
     pendingAppointmentOperations := pendingAppointmentOperations ls;
     cachedAppointments := cachedAppointments ls |}.

(** [localStorage.setItem('pendingAppointmentOperations', JSON.stringify(ops))] *)
Definition storePendingOperations (ops : list PendingOperation) (ls : LocalStorage) : LocalStorage :=
  {| token := token ls;
     pendingAppointmentOperations := Some (Json ops);
     cachedAppointments := cachedAppointments ls |}.

(** [localStorage.setItem('cachedAppointments', JSON.stringify(appointments))] *)
Definition storeCachedAppointments (appointments : list Appointment) (ls : LocalStorage) : LocalStorage :=
  {| token := token ls;
     pendingAppointmentOperations := pendingAppointmentOperations ls;
     cachedAppointments := Some (Json appointments) |}.

(** The cached list as the service reads it: [getItem], the truthiness test
    and [JSON.parse] inside [try]; [None] when any of the three gives
    nothing. *)
Definition readCachedAppointments (ls : LocalStorage) : option (list Appointment) :=
  match cachedAppointments ls with
  | Some item => if itemTruthy (Some item) then JSON_parse item else None
  | None => None
  end.

(** ** AppointmentSyncManager: the queue *)

(** [loadPendingOperations]: the stored list replaces the queue; a missing
    or empty entry leaves it, a text that does not parse empties it. *)
Definition loadPendingOperations (ls : LocalStorage) (queue : list PendingOperation)
  : list PendingOperation :=
  match pendingAppointmentOperations ls with
  | Some item =>
      if itemTruthy (Some item) then
        match JSON_parse item with
        | Some storedOps => storedOps
        | None => []
        end
      else queue
  | None => queue
  end.

(** The constructor: the field initialiser [[]], then the load. *)
Definition newPendingOperations (ls : LocalStorage) : list PendingOperation :=
  loadPendingOperations ls [].

(** The module state right after the service is loaded. *)
Definition initialState (ls : LocalStorage) (online : bool) (time : Z) : State :=
  {| pendingOperations := newPendingOperations ls; isProcessing := false;
     lastSuccessfulEndpoint := None; MOCK_DATA := ∅;
     localStorage := ls; onLine := online; now := time;
     requests := []; passes := [] |}.

(** [savePendingOperations] *)
Definition savePendingOperations (st : State) : State :=
  set_localStorage (storePendingOperations (pendingOperations st) (localStorage st)) st.

(** The stable sort of [sortedOperations], oldest time value first. *)
Fixpoint insertByTimestamp (x : PendingOperation) (l : list PendingOperation)
  : list PendingOperation :=
  match l with
  | [] => [x]
  | y :: l' =>
      if op_timestamp x <=? op_timestamp y then x :: y :: l'
      else y :: insertByTimestamp x l'
  end.

Definition sortByTimestamp (l : list PendingOperation) : list PendingOperation :=
  foldr insertByTimestamp [] l.

Section Service.
Context {env : Environment}.

(** ** Requests *)

(** [axios({ method, url, headers, data: { status }, timeout })]: the request
    is recorded and settles as the backend decides. *)
Definition axios (req : Request) (st : State) : AxiosResult Body * State :=
  (respond (requests st) req, set_requests (requests st ++ [req]) st).

Definition statusRequest (e : Endpoint) (hdrs : list (string * string)) (s : Status) : Request :=
  {| req_method := method e; req_url := url e; req_headers := hdrs; req_data := Some s |}.

(** The endpoint list of [syncAppointmentToDatabase]. *)
Definition syncEndpoints (cleanId : string) : list Endpoint :=
  [ {| url := API_URL +:+ "/appointments/" +:+ cleanId; method := "PATCH" |};
    {| url := API_URL +:+ "/appointments/" +:+ cleanId +:+ "/status"; method := "PUT" |};
    {| url := API_URL +:+ "/appointments/status/" +:+ cleanId; method := "PUT" |};
    {| url := API_URL +:+ "/appointment/" +:+ cleanId; method := "PATCH" |};
    {| url := API_URL +:+ "/appointment/status/" +:+ cleanId; method := "PUT" |} ].

(** The endpoint list of [updateAppointmentStatus]. *)
Definition updateEndpoints (cleanId : string) : list Endpoint :=
  [ {| url := API_URL +:+ "/appointments/" +:+ cleanId; method := "PATCH" |};
    {| url := API_URL +:+ "/appointments/status/" +:+ cleanId; method := "PUT" |};
    {| url := API_URL +:+ "/appointment/" +:+ cleanId; method := "PATCH" |};
    {| url := API_URL +:+ "/appointment/status/" +:+ cleanId; method := "PUT" |};
    {| url := API_URL +:+ "/appointments?id=" +:+ cleanId; method := "PATCH" |};
    {| url := API_URL +:+ "/appointment?id=" +:+ cleanId; method := "PATCH" |};
    {| url := API_URL +:+ "/appointments/status?id=" +:+ cleanId; method := "PUT" |};
    {| url := API_URL +:+ "/appointment/status?id=" +:+ cleanId; method := "PUT" |};
    {| url := API_URL +:+ "/updateAppointment/" +:+ cleanId; method := "POST" |};
    {| url := API_URL +:+ "/cancelAppointment/" +:+ cleanId; method := "POST" |} ].

(** The error thrown by [response.data.data] when the body is [null]. *)
Definition noBodyError : Exception :=
  Error "Cannot read properties of null (reading 'data')".

(** The loop [for (const endpoint of endpoints)] that both
    [syncAppointmentToDatabase] and [updateAppointmentStatus] run. An
    endpoint whose request resolves is stored in [lastSuccessfulEndpoint],
    and [response.data.data] is returned; on an answer without a body that
    expression throws, after the endpoint has been stored, and the [catch]
    of the loop takes the error as it takes a rejected request: the loop
    goes on. When the list is used up the last error is handed back. *)
Fixpoint tryEndpoints (eps : list Endpoint) (hdrs : list (string * string))
    (s : Status) (lastErr : option Exception) (st : State)
  : (option Appointment + option Exception) * State :=
  match eps with
  | [] => (inr lastErr, st)
  | e :: eps' =>
      let '(response, st1) := axios (statusRequest e hdrs s) st in
      match response with
      | Resolved body =>
          let st2 := set_lastSuccessfulEndpoint (Some e) st1 in
          match body with
          | WithData data => (inl data, st2)
          | NoBody => tryEndpoints eps' hdrs s (Some noBodyError) st2
          end
      | Rejected error => tryEndpoints eps' hdrs s (Some (AxiosException error)) st1
      end
  end.

(** [syncAppointmentToDatabase]: [inl] is the returned data, [inr] the
    error thrown once every endpoint has failed. *)
Definition syncAppointmentToDatabase (id : string) (s : Status) (st : State)
  : (option Appointment + option Exception) * State :=
  let cleanId := Js.trim id in
  let hdrs := authHeader (localStorage st) in
  tryEndpoints (syncEndpoints cleanId) hdrs s None st.

(** ** The drain pass, run from its call to its end *)

(** The loop over [sortedOperations]: a failed operation ends it. *)
Fixpoint syncOperations (sortedOperations : list PendingOperation)
    (toRemove : list string) (st : State) : list string * State :=
  match sortedOperations with
  | [] => (toRemove, st)
  | op :: rest =>
      match syncAppointmentToDatabase (op_id op) (op_status op) st with
      | (inl _, st1) => syncOperations rest (toRemove ++ [op_id op]) st1
      | (inr _, st1) => (toRemove, st1)
      end
  end.

(** The end of a pass: the synced operations leave the queue, which is
    saved when something left, and the flag is cleared. *)
Definition finishPass (toRemove : list string) (st : State) : State :=
  let st1 :=
    if (0 <? length toRemove)%nat then
      savePendingOperations
        (set_pendingOperations
           (filter (λ op, op_id op ∉ toRemove) (pendingOperations st)) st)
    else st in
  set_isProcessing false st1.

(** The test that opens [syncPendingOperations]. *)
Definition passRefused (st : State) : bool :=
  isProcessing st || (length (pendingOperations st) =? 0)%nat || negb (onLine st).

(** [syncPendingOperations], awaited while nothing else runs. *)
Definition syncPendingOperations (st : State) : State :=
  if passRefused st then st
  else
    let st1 := set_isProcessing true st in
    let sortedOperations := sortByTimestamp (pendingOperations st1) in
    let '(toRemove, st2) := syncOperations sortedOperations [] st1 in
    finishPass toRemove st2.

(** ** The drain pass as a coroutine

    A call of an [async] function runs to its first [await]; the rest runs
    when the awaited request settles. *)

(** A request of the pass goes out and the pass is suspended on it. *)
Definition suspendOn (op : PendingOperation) (rest : list PendingOperation)
    (toRemove : list string) (hdrs : list (string * string))
    (e : Endpoint) (eps : list Endpoint) (lastErr : option Exception) (st : State) : State :=
  let '(response, st1) := axios (statusRequest e hdrs (op_status op)) st in
  set_passes
    (passes st1 ++
       [ {| operation := op; remaining := rest; operationsToRemove := toRemove;
            headers := hdrs; endpoint := e; endpoints := eps;
            lastError := lastErr; settlement := response |} ]) st1.

(** The head of the loop over [sortedOperations]: the next operation enters
    [syncAppointmentToDatabase] and its first request goes out. *)
Definition nextOperation (sortedOperations : list PendingOperation)
    (toRemove : list string) (st : State) : State :=
  match sortedOperations with
  | [] => finishPass toRemove st
  | op :: rest =>
      match syncEndpoints (Js.trim (op_id op)) with
      | e :: eps =>
          suspendOn op rest toRemove (authHeader (localStorage st)) e eps None st
      | [] => finishPass toRemove st
      end
  end.

(** A call of [syncPendingOperations] that is not awaited. *)
Definition callSyncPendingOperations (st : State) : State :=
  if passRefused st then st
  else
    let st1 := set_isProcessing true st in
    nextOperation (sortByTimestamp (pendingOperations st1)) [] st1.

(** The [catch] of the endpoint loop in the suspended pass [p]: the next
    endpoint is asked, or, the list used up, the error is thrown to
    [syncPendingOperations], which ends its loop. *)
Definition nextEndpoint (p : Pass) (error : Exception) (st : State) : State :=
  match endpoints p with
  | e :: eps =>
      suspendOn (operation p) (remaining p) (operationsToRemove p)
        (headers p) e eps (Some error) st
  | [] => finishPass (operationsToRemove p) st
  end.

(** The suspended pass [p] goes on after its request has settled. *)
Definition resume (p : Pass) (st : State) : State :=
  match settlement p with
  | Resolved body =>
      let st1 := set_lastSuccessfulEndpoint (Some (endpoint p)) st in
      match body with
      | WithData _ =>
          nextOperation (remaining p) (operationsToRemove p ++ [op_id (operation p)]) st1
      | NoBody => nextEndpoint p noBodyError st1
      end
  | Rejected error => nextEndpoint p (AxiosException error) st
  end.

(** The request of the oldest suspended pass settles. *)
Definition settle (st : State) : State :=
  match passes st with
  | [] => st
  | p :: ps => resume p (set_passes ps st)
  end.

(** [addPendingOperation]: the entry of [id] is overwritten where it stands,
    or a new entry is pushed; the queue is saved; on line, a pass is called
    and not awaited. *)
Definition addPendingOperation (id : string) (s : Status) (st : State) : State :=
  let entry := {| op_id := id; op_status := s; op_timestamp := now st |} in
  let queue :=
    match list_find (λ op, op_id op = id) (pendingOperations st) with
    | Some (existingIndex, _) => <[existingIndex := entry]> (pendingOperations st)
    | None => pendingOperations st ++ [entry]
    end in
  let st1 := savePendingOperations (set_pendingOperations queue st) in
  if onLine st1 then callSyncPendingOperations st1 else st1.

(** [getPendingOperations] and [hasPendingAppointmentSyncs] *)
Definition getPendingOperations (st : State) : list PendingOperation :=
  pendingOperations st.

Definition hasPendingAppointmentSyncs (st : State) : bool :=
  (0 <? length (getPendingOperations st))%nat.

(** [setSuccessfulEndpoint] *)
Definition setSuccessfulEndpoint (u m : string) (st : State) : State :=
  set_lastSuccessfulEndpoint (Some {| url := u; method := m |}) st.

(** ** [updateAppointmentStatus] *)

(** The attempt on [lastSuccessfulEndpoint]: [Some data] when its request
    resolved and [response.data.data] could be read, [None] when there is
    no such endpoint, when its request was rejected, whatever the error, or
    when the answer had no body: the [catch] takes all of these. *)
Definition tryLastSuccessful (cleanId : string) (hdrs : list (string * string))
    (s : Status) (st : State) : option (option Appointment) * State :=
  match lastSuccessfulEndpoint st with
  | None => (None, st)
  | Some last =>
      let u := Js.replaceId (url last) ("/" +:+ cleanId) in
      let '(response, st1) := axios (statusRequest {| url := u; method := method last |} hdrs s) st in
      match response with
      | Resolved (WithData data) => (Some data, st1)
      | Resolved NoBody => (None, st1)
      | Rejected _ => (None, st1)
      end
  end.

(** The mock appointment made when neither [MOCK_DATA] nor the cache has
    one. *)
Definition mockAppointment (cleanId : string) (time : Z) : Appointment :=
  {| _id := cleanId; doctorId := DoctorId ""; userId := ""; date := time;
     status := pending; createdAt := time; updatedAt := time |}.

(** [{ ...appointment, status, updatedAt }] *)
Definition withStatus (a : Appointment) (s : Status) (time : Z) : Appointment :=
  {| _id := _id a; doctorId := doctorId a; userId := userId a; date := date a;
     status := s; createdAt := createdAt a; updatedAt := time |}.

(** The names of the members that the object literal of the mock table
    inherits from [Object.prototype]: under these keys a lookup in the
    table of the code finds the inherited member where the table has no
    entry of its own. *)
Definition inheritedMembers : list string :=
  [ "constructor"; "hasOwnProperty"; "isPrototypeOf"; "propertyIsEnumerable";
    "toLocaleString"; "toString"; "valueOf"; "__proto__";
    "__defineGetter__"; "__defineSetter__"; "__lookupGetter__"; "__lookupSetter__" ].

(** The path taken once every endpoint has failed: the operation is queued,
    the entry of [MOCK_DATA.appointments] is taken from the table, else from
    the cache, else made up, and gets the new status; the cached list, when
    there is one, gets that entry in the place of the appointment. The
    lookup is that of the code for the keys outside [inheritedMembers]. *)
Definition offlineFallback (cleanId : string) (s : Status) (st : State) : Appointment * State :=
  let st1 := addPendingOperation cleanId s st in
  let current :=
    match MOCK_DATA st1 !! cleanId with
    | Some known => known
    | None =>
        match readCachedAppointments (localStorage st1) with
        | Some appointments =>
            match List.find (λ a, bool_decide (_id a = cleanId)) appointments with
            | Some foundAppointment => foundAppointment
            | None => mockAppointment cleanId (now st1)
            end
        | None => mockAppointment cleanId (now st1)
        end
    end in
  let updated := withStatus current s (now st1) in
  let st2 := set_MOCK_DATA (<[cleanId := updated]> (MOCK_DATA st1)) st1 in
  let st3 :=
    match readCachedAppointments (localStorage st2) with
    | Some appointments =>
        let updatedAppointments :=
          map (λ a, if bool_decide (_id a = cleanId) then updated else a) appointments in
        set_localStorage (storeCachedAppointments updatedAppointments (localStorage st2)) st2
    | None => st2
    end in
  (updated, st3).

(** The [try] block. The two guards throw plain errors; every rejected
    request, and every answer without a body, is caught where the request
    is made, and the block returns the mock appointment before its closing
    [throw]. *)
Definition updateAppointmentStatus_try (id : string) (s : Status) (st : State)
  : (option Appointment + Exception) * State :=
  let hdrs := authHeader (localStorage st) in
  if tokenMissing (localStorage st) then
    (inr (Error "Your session has expired. Please sign in again."), st)
  else
    let cleanId := Js.trim id in
    if negb (Js.truthy cleanId) || (Js.length cleanId <? 10)%nat then
      (inr (Error "Invalid appointment ID"), st)
    else
      match tryLastSuccessful cleanId hdrs s st with
      | (Some data, st1) => (inl data, st1)
      | (None, st1) =>
          match tryEndpoints (updateEndpoints cleanId) hdrs s None st1 with
          | (inl data, st2) => (inl data, st2)
          | (inr _, st2) =>
              let '(mock, st3) := offlineFallback cleanId s st2 in
              (inl (Some mock), st3)
          end
      end.

(** [value || fallback] on an optional text. *)
Definition orElse (value : option string) (fallback : string) : string :=
  match value with
  | Some v => if Js.truthy v then v else fallback
  | None => fallback
  end.

(** The [catch] block: the message of the error it throws, and the token
    removed on 401 and 403. *)
Definition updateAppointmentStatus_catch (error : Exception) (st : State) : string * State :=
  match error with
  | AxiosException (ResponseError code serverError config_url) =>
      if code =? 404 then
        ("Appointment update endpoint not found (" +:+ orElse config_url "unknown URL"
           +:+ "). The API endpoint may have changed. Please contact support.", st)
      else if (code =? 401) || (code =? 403) then
        ("Your session has expired. Please sign in again.",
         set_localStorage (removeToken (localStorage st)) st)
      else
        (orElse serverError ("Failed to update appointment: " +:+ pretty code), st)
  | AxiosException RequestError =>
      ("No response received from server. Please check your internet connection and try again.", st)
  | AxiosException (SetupError message) => ("Request failed: " +:+ message, st)
  | Error message => ("Request failed: " +:+ message, st)
  end.

Definition updateAppointmentStatus (id : string) (s : Status) (st : State) : Outcome * State :=
  match updateAppointmentStatus_try id s st with
  | (inl appointment, st1) => (Returned appointment, st1)
  | (inr error, st1) =>
      let '(message, st2) := updateAppointmentStatus_catch error st1 in
      (Threw message, st2)
  end.

(** ** [getUserAppointments] *)

Definition listRequest (hdrs : list (string * string)) : Request :=
  {| req_method := "GET"; req_url := API_URL +:+ "/appointments";
     req_headers := hdrs; req_data := None |}.

(** The answer is typed [AppointmentsResponse]. The server's list is
    cached and returned as it came, and a pass is called when on line;
    after a failed request the cached list is returned as it is stored, or
    the empty list. *)
Definition getUserAppointments (st : State) : list Appointment * State :=
  let req := listRequest (authHeader (localStorage st)) in
  let response := respondList (requests st) req in
  let st1 := set_requests (requests st ++ [req]) st in
  match response with
  | Resolved data =>
      let st2 := set_localStorage (storeCachedAppointments data (localStorage st1)) st1 in
      let st3 := if onLine st2 then callSyncPendingOperations st2 else st2 in
      (data, st3)
  | Rejected _ =>
      match readCachedAppointments (localStorage st1) with
      | Some appointments => (appointments, st1)
      | None => ([], st1)
      end
  end.

(** ** The cancel control of the appointment list *)

(** [isCancellable], on time values; the deadline is the date of the
    appointment set back by [CANCELLATION_WINDOW_HOURS] hours of the local
    clock. *)
Definition isCancellable (appointmentDate time : Z) : bool :=
  if appointmentDate <? time then false
  else if 0 <? CANCELLATION_WINDOW_HOURS then
    time <? hoursEarlier appointmentDate CANCELLATION_WINDOW_HOURS
  else true.

(** [appointment.status !== "cancelled" && isCancellable(appointmentDate)] *)
Definition canCancel (a : Appointment) (time : Z) : bool :=
  negb (bool_decide (status a = cancelled)) && isCancellable (date a) time.


(** ** Runs of the service *)

(** What can happen to the service: its exported functions are called, the
    browser goes on or off line, time passes, a request of a suspended pass
    settles. A call of [updateAppointmentStatus] or [getUserAppointments]
    is one step, from the call to the return; a pass takes one step per
    request. *)
Inductive Event :=
| UpdateStatus (id : string) (s : Status)
| ListAppointments
| Enqueue (id : string) (s : Status)
| TriggerSync
| SetEndpoint (u m : string)
| Settle
| Connectivity (online : bool)
| Clock (time : Z).

Definition step (ev : Event) (st : State) : State :=
  match ev with
  | UpdateStatus id s => (updateAppointmentStatus id s st).2
  | ListAppointments => (getUserAppointments st).2
  | Enqueue id s => addPendingOperation id s st
  | TriggerSync => callSyncPendingOperations st
  | SetEndpoint u m => setSuccessfulEndpoint u m st
  | Settle => settle st
  | Connectivity online => set_onLine online st
  | Clock time => set_now time st
  end.

Definition run (evs : list Event) (st : State) : State :=
  foldl (λ acc ev, step ev acc) st evs.

End Service.

(** ** Auxiliary definitions of the statements *)

(** The queue after [addPendingOperation], without the storage and the
    pass. *)
Definition enqueued (id : string) (s : Status) (time : Z) (l : list PendingOperation)
  : list PendingOperation :=
  let entry := {| op_id := id; op_status := s; op_timestamp := time |} in
  match list_find (λ op, op_id op = id) l with
  | Some (existingIndex, _) => <[existingIndex := entry]> l
  | None => l ++ [entry]
  end.

(** [old] is twenty-four characters of [[a-f0-9]]. *)
Definition isObjectId (old : string) : Prop :=
  String.length old = 24%nat
  ∧ forallb Js.isHexLower (String.list_ascii_of_string old) = true.

(** The identifier pattern has no match in [text] that starts among its
    first [n] characters. *)
Definition noIdWithin (n : nat) (text : string) : Prop :=
  ∀ i, (i < n)%nat → Js.matchIdAt (drop i (String.list_ascii_of_string text)) = None.

(** [text] has no dollar sign. *)
Definition noDollar (text : string) : Prop :=
  "$"%char ∉ String.list_ascii_of_string text.

(** One queued operation per identifier. *)
Definition uniqueIds (st : State) : Prop :=
  NoDup (map op_id (pendingOperations st)).

(** A queue listed oldest first. *)
Definition oldestFirst (l : list PendingOperation) : Prop :=
  ∀ i j x y, (i < j)%nat → l !! i = Some x → l !! j = Some y →
             op_timestamp x <= op_timestamp y.

(** [st'] differs from [st] at most in the requests made, which are those
    of [st] and some more, and in [lastSuccessfulEndpoint]. *)
Definition networkOnly (st st' : State) : Prop :=
  pendingOperations st' = pendingOperations st ∧
  isProcessing st' = isProcessing st ∧
  MOCK_DATA st' = MOCK_DATA st ∧
  localStorage st' = localStorage st ∧
  onLine st' = onLine st ∧
  now st' = now st ∧
  passes st' = passes st ∧
  ∃ more, requests st' = requests st ++ more.

(** The flag [isProcessing] is set exactly while one pass is suspended, and
    there is never a second one. *)
Definition onePass (st : State) : Prop :=
  match passes st with
  | [] => isProcessing st = false
  | [_] => isProcessing st = true
  | _ :: _ :: _ => False
  end.

Section Statements.
Context {env : Environment}.

(** [n] settlements in a row. *)
Fixpoint settles (n : nat) (st : State) : State :=
  match n with
  | O => st
  | S n' => settles n' (settle st)
  end.

(** Every request of [reqs], made in turn after [history], is rejected. *)
Fixpoint allRejected (reqs history : list Request) : bool :=
  match reqs with
  | [] => true
  | r :: rs =>
      match respond history r with
      | Rejected _ => allRejected rs (history ++ [r])
      | Resolved _ => false
      end
  end.

(** Every request of [reqs], made in turn after [history], gives no
    result: it is rejected, or it resolves without a body. *)
Fixpoint allFailed (reqs history : list Request) : bool :=
  match reqs with
  | [] => true
  | r :: rs =>
      match respond history r with
      | Resolved (WithData _) => false
      | Resolved NoBody | Rejected _ => allFailed rs (history ++ [r])
      end
  end.

(** A network or endpoint error: no response was received, or the answer
    is HTTP 404. *)
Definition isNetworkOrEndpointError (error : AxiosError) : bool :=
  match error with
  | RequestError => true
  | ResponseError code _ _ => code =? 404
  | SetupError _ => false
  end.

(** Every request of [reqs], made in turn after [history], fails with a
    network or endpoint error. *)
Fixpoint allUnavailable (reqs history : list Request) : bool :=
  match reqs with
  | [] => true
  | r :: rs =>
      match respond history r with
      | Rejected error => isNetworkOrEndpointError error && allUnavailable rs (history ++ [r])
      | Resolved _ => false
      end
  end.

(** The state after each operation of [ops] has been synced in turn; [None]
    when one of them fails. *)
Fixpoint allSynced (ops : list PendingOperation) (st : State) : option State :=
  match ops with
  | [] => Some st
  | op :: rest =>
      match syncAppointmentToDatabase (op_id op) (op_status op) st with
      | (inl _, st1) => allSynced rest st1
      | (inr _, _) => None
      end
  end.

(** The requests of a call of [updateAppointmentStatus] that gets past its
    guards and finds no working endpoint. *)
Definition attempts (id : string) (s : Status) (st : State) : list Request :=
  let cleanId := Js.trim id in
  let hdrs := authHeader (localStorage st) in
  match lastSuccessfulEndpoint st with
  | Some last =>
      [statusRequest
         {| url := Js.replaceId (url last) ("/" +:+ cleanId); method := method last |} hdrs s]
  | None => []
  end ++ map (λ e, statusRequest e hdrs s) (updateEndpoints cleanId).

(** A series of [addPendingOperation] calls, each at its own time. *)
Definition enqueueAll (calls : list (Z * string * Status)) (st : State) : State :=
  foldl (λ acc '(time, id, s), addPendingOperation id s (set_now time acc)) st calls.

(** The last call of the series that names [id]. *)
Definition lastIntent (id : string) (calls : list (Z * string * Status)) : option (Z * Status) :=
  foldl (λ acc '(time, id', s), if bool_decide (id' = id) then Some (time, s) else acc) None calls.

End Statements.

(** ** Sample backends and states *)

(** A time zone without changes of offset. *)
Definition fixedOffset (d h : Z) : Z := d - h * 3600000.

Definition bearer (ls : LocalStorage) : list (string * string) :=
  match token ls with
  | Some t => [("Authorization", "Bearer " +:+ t)]
  | None => []
  end.

(** No request gets an answer. *)
Definition unreachable : Environment :=
  {| API_URL := "http://localhost:5000/api"; authHeader := bearer;
     CANCELLATION_WINDOW_HOURS := 24; hoursEarlier := fixedOffset;
     respond := λ _ _, Rejected RequestError;
     respondList := λ _ _, Rejected RequestError |}.

(** Every request is answered 401. *)
Definition unauthorized : Environment :=
  {| API_URL := "http://localhost:5000/api"; authHeader := bearer;
     CANCELLATION_WINDOW_HOURS := 24; hoursEarlier := fixedOffset;
     respond := λ _ r, Rejected (ResponseError 401 (Some "Not authorized") (Some (req_url r)));
     respondList := λ _ r, Rejected (ResponseError 401 (Some "Not authorized") (Some (req_url r))) |}.

Definition signedIn : LocalStorage :=
  {| token := Some "jwt"; pendingAppointmentOperations := None; cachedAppointments := None |}.

Definition idA : string := "64b7f0c2a1d3e4f5a6b7c8d9".
Definition idB : string := "64b7f0c2a1d3e4f5a6b7c8da".
Definition idC : string := "64b7f0c2a1d3e4f5a6b7c8db".

Definition appt (id : string) (s : Status) : Appointment :=
  {| _id := id; doctorId := DoctorObject "Dr. Rao" "Cardiology"; userId := "u1";
     date := 2000; status := s; createdAt := 10; updatedAt := 10 |}.


(** Only requests to the URL [u] resolve. *)
Definition answersOnly (u : string) (s : Status) (id : string) : Environment :=
  {| API_URL := "http://localhost:5000/api"; authHeader := bearer;
     CANCELLATION_WINDOW_HOURS := 24; hoursEarlier := fixedOffset;
     respond := λ _ r,
       if bool_decide (req_url r = u) then Resolved (WithData (Some (appt id s)))
       else Rejected RequestError;
     respondList := λ _ _, Rejected RequestError |}.

Definition opA : PendingOperation := {| op_id := idA; op_status := cancelled; op_timestamp := 10 |}.
Definition opB : PendingOperation := {| op_id := idB; op_status := cancelled; op_timestamp := 30 |}.
Definition opC : PendingOperation := {| op_id := idC; op_status := confirmed; op_timestamp := 50 |}.

(** On line, idle, three operations queued out of the order of their
    times. *)
Definition queuedBAC : State :=
  {| pendingOperations := [opB; opA; opC]; isProcessing := false;
     lastSuccessfulEndpoint := None; MOCK_DATA := ∅;
     localStorage :=
       {| token := Some "jwt";
          pendingAppointmentOperations := Some (Json [opB; opA; opC]);
          cachedAppointments := None |};
     onLine := true; now := 100; requests := []; passes := [] |}.

Definition patchA : Endpoint :=
  {| url := "http://localhost:5000/api/appointments/64b7f0c2a1d3e4f5a6b7c8d9";
     method := "PATCH" |}.

(** Signed in, [idA] cached with status [s], nothing queued. *)
Definition cachedA (s : Status) (online : bool) : State :=
  initialState
    {| token := Some "jwt"; pendingAppointmentOperations := None;
       cachedAppointments := Some (Json [appt idA s; appt idB pending]) |}
    online 100.

Definition putStatusA : Endpoint :=
  {| url := "http://localhost:5000/api/appointments/status/64b7f0c2a1d3e4f5a6b7c8d9";
     method := "PUT" |}.

(** As [cachedA], after a call that succeeded on [e]. *)
Definition resolvedOn (e : Endpoint) (online : bool) : State :=
  set_lastSuccessfulEndpoint (Some e) (cachedA confirmed online).

(** ** The appointment list: the cancel handler and the endpoint test *)

Module JsText.

(** [sub] is at the head of [s]. *)
Fixpoint startsWith (s sub : list ascii) : bool :=
  match sub, s with
  | [], _ => true
  | _ :: _, [] => false
  | c :: sub', d :: s' => bool_decide (c = d) && startsWith s' sub'
  end.

Fixpoint includesChars (s sub : list ascii) : bool :=
  startsWith s sub ||
  match s with
  | [] => false
  | _ :: s' => includesChars s' sub
  end.

(** [s.includes(sub)] *)
Definition includes (s sub : string) : bool :=
  includesChars (String.list_ascii_of_string s) (String.list_ascii_of_string sub).

End JsText.

(** The state of the list component that the handlers below write:
    [appointments] and [cannotCancel]. *)
Record ListView := {
  shown : list Appointment;
  cannotCancel : bool
}.

(** [l.map(a => a._id === id ? { ...a, status: "cancelled", updatedAt } : a)] *)
Definition markCancelled (id : string) (time : Z) (l : list Appointment) : list Appointment :=
  map (λ a, if bool_decide (_id a = id) then withStatus a cancelled time else a) l.

(** The page of the endpoint test: the service, the appointments listed, and
    the [localStorage] entry ['successfulAppointmentEndpoint']. *)
Record Page := {
  service : State;
  listed : list Appointment;
  successfulAppointmentEndpoint : option (Item Endpoint)
}.

(** [getStoredEndpoint]: the parsed entry, [None] when it is missing, empty
    or does not parse. *)
Definition getStoredEndpoint (stored : option (Item Endpoint)) : option Endpoint :=
  match stored with
  | Some item => if itemTruthy (Some item) then JSON_parse item else None
  | None => None
  end.

(** [storeSuccessfulEndpoint] *)
Definition storeSuccessfulEndpoint (u m : string) (p : Page) : Page :=
  {| service := service p; listed := listed p;
     successfulAppointmentEndpoint := Some (Json {| url := u; method := m |}) |}.

Definition set_service (st : State) (p : Page) : Page :=
  {| service := st; listed := listed p;
     successfulAppointmentEndpoint := successfulAppointmentEndpoint p |}.

Definition set_listed (l : list Appointment) (p : Page) : Page :=
  {| service := service p; listed := l;
     successfulAppointmentEndpoint := successfulAppointmentEndpoint p |}.

(** The cached list, when there is one, gets the appointment cancelled. *)
Definition cacheCancelled (cleanId : string) (st : State) : State :=
  match readCachedAppointments (localStorage st) with
  | Some appointments =>
      set_localStorage
        (storeCachedAppointments (markCancelled cleanId (now st) appointments) (localStorage st))
        st
  | None => st
  end.

Section ListComponent.
Context {env : Environment}.

(** [handleCancelAppointment] with the list it writes: the appointment the
    service returns takes the place of the one shown; without one, and after
    an error thrown while off line (or whose message speaks of no response),
    the one shown is marked cancelled; after any other error the list is
    left and [cannotCancel] is set. *)
Definition cancelFromList (id : string) (v : ListView) (st : State) : ListView * State :=
  match updateAppointmentStatus id cancelled st with
  | (Returned (Some updatedAppointment), st1) =>
      ({| shown := map (λ appt, if bool_decide (_id appt = id) then updatedAppointment else appt)
                     (shown v);
          cannotCancel := false |}, st1)
  | (Returned None, st1) =>
      ({| shown := markCancelled id (now st1) (shown v); cannotCancel := cannotCancel v |}, st1)
  | (Threw message, st1) =>
      if negb (onLine st1) || JsText.includes message "No response received" then
        ({| shown := markCancelled id (now st1) (shown v); cannotCancel := cannotCancel v |}, st1)
      else
        ({| shown := shown v; cannotCancel := true |}, st1)
  end.

(** The endpoint list of [testCancellation]. *)
Definition endpointVariations (apiUrl cleanId : string) : list Endpoint :=
  [ {| url := apiUrl +:+ "/appointments/" +:+ cleanId; method := "PATCH" |};
    {| url := apiUrl +:+ "/appointments/status/" +:+ cleanId; method := "PUT" |};
    {| url := apiUrl +:+ "/appointment/" +:+ cleanId; method := "PATCH" |};
    {| url := apiUrl +:+ "/appointment/status/" +:+ cleanId; method := "PUT" |};
    {| url := apiUrl +:+ "/appointments?id=" +:+ cleanId; method := "PATCH" |};
    {| url := apiUrl +:+ "/appointment?id=" +:+ cleanId; method := "PATCH" |};
    {| url := apiUrl +:+ "/appointments/status?id=" +:+ cleanId; method := "PUT" |};
    {| url := apiUrl +:+ "/appointment/status?id=" +:+ cleanId; method := "PUT" |};
    {| url := apiUrl +:+ "/updateAppointment/" +:+ cleanId; method := "POST" |};
    {| url := apiUrl +:+ "/cancelAppointment/" +:+ cleanId; method := "POST" |} ].

(** The loop of [testCancellation]: every endpoint is asked; the first that
    resolves is handed to [setSuccessfulEndpoint] and stored. *)
Fixpoint testEndpoints (eps successfulEndpoints : list Endpoint) (p : Page)
  : list Endpoint * Page :=
  match eps with
  | [] => (successfulEndpoints, p)
  | e :: eps' =>
      let '(response, st1) :=
        axios (statusRequest e (authHeader (localStorage (service p))) cancelled) (service p) in
      match response with
      | Resolved _ =>
          let successes := successfulEndpoints ++ [e] in
          let p1 :=
            if (length successes =? 1)%nat then
              storeSuccessfulEndpoint (url e) (method e)
                (set_service (setSuccessfulEndpoint (url e) (method e) st1) p)
            else set_service st1 p in
          testEndpoints eps' successes p1
      | Rejected _ => testEndpoints eps' successfulEndpoints (set_service st1 p)
      end
  end.

(** The attempt of [testCancellation] on the stored endpoint: whether its
    request resolved. *)
Definition testStoredEndpoint (cleanId : string) (p : Page) : bool * State :=
  match getStoredEndpoint (successfulAppointmentEndpoint p) with
  | Some storedEndpoint =>
      let u := Js.replaceId (url storedEndpoint) ("/" +:+ cleanId) in
      let '(response, st1) :=
        axios (statusRequest {| url := u; method := method storedEndpoint |}
                 (authHeader (localStorage (service p))) cancelled) (service p) in
      match response with
      | Resolved _ => (true, st1)
      | Rejected _ => (false, st1)
      end
  | None => (false, service p)
  end.

(** [testCancellation]; [VITE_API_URL] is the build-time variable. *)
Definition testCancellation (appointment : option Appointment)
    (VITE_API_URL : option string) (p : Page) : Page :=
  match appointment with
  | None => p
  | Some a =>
      let cleanId := Js.trim (_id a) in
      match testStoredEndpoint cleanId p with
      | (true, st1) =>
          set_service (cacheCancelled cleanId st1)
            (set_listed (markCancelled cleanId (now st1) (listed p)) p)
      | (false, st1) =>
          let apiUrl := orElse VITE_API_URL "http://localhost:5000/api" in
          let '(successes, p2) :=
            testEndpoints (endpointVariations apiUrl cleanId) [] (set_service st1 p) in
          let p3 := set_listed (markCancelled cleanId (now (service p2)) (listed p2)) p2 in
          if (0 <? length successes)%nat then
            set_service (cacheCancelled cleanId (service p3)) p3
          else p3
      end
  end.

End ListComponent.

(** ** More auxiliary definitions *)

(** The service restarted on the stored state has the queue of [st]. *)
Definition storedQueueAgrees (st : State) : Prop :=
  newPendingOperations (localStorage st) = pendingOperations st.

(** The event is no status update under the name of an inherited member. *)
Definition updatesOwnKey (ev : Event) : Prop :=
  match ev with
  | UpdateStatus id _ => Js.trim id ∉ inheritedMembers
  | _ => True
  end.

(** Every entry of the mock table carries the identifier it is filed
    under. *)
Definition mockKeyed (st : State) : Prop :=
  ∀ key a, MOCK_DATA st !! key = Some a → _id a = key.

(** The identifier pattern has no match in [l] at the offsets below [n]. *)
Definition noMatchBelow (n : nat) (l : list ascii) : bool :=
  forallb (λ i, bool_decide (Js.matchIdAt (drop i l) = None)) (seq 0 n).

(** More sample values. *)
Definition queryA : Endpoint :=
  {| url := "http://localhost:5000/api/appointments?id=64b7f0c2a1d3e4f5a6b7c8d9";
     method := "PATCH" |}.

Definition putAStatus : Endpoint :=
  {| url := "http://localhost:5000/api/appointments/64b7f0c2a1d3e4f5a6b7c8d9/status";
     method := "PUT" |}.

(** Every status request resolves, with a body. *)
Definition accepting : Environment :=
  {| API_URL := "http://localhost:5000/api"; authHeader := bearer;
     CANCELLATION_WINDOW_HOURS := 24; hoursEarlier := fixedOffset;
     respond := λ _ r,
       Resolved (WithData (match req_data r with Some s => Some (appt idA s) | None => None end));
     respondList := λ _ _, Rejected RequestError |}.

(** The endpoint at [u] answers without a body; no other answers. *)
Definition withoutBody (u : string) : Environment :=
  {| API_URL := "http://localhost:5000/api"; authHeader := bearer;
     CANCELLATION_WINDOW_HOURS := 24; hoursEarlier := fixedOffset;
     respond := λ _ r,
       if bool_decide (req_url r = u) then Resolved NoBody else Rejected RequestError;
     respondList := λ _ _, Rejected RequestError |}.

Definition signedOut : LocalStorage :=
  {| token := None; pendingAppointmentOperations := None;
     cachedAppointments := Some (Json [appt idA confirmed]) |}.

(** An appointment more than a day ahead of the times used here. *)
Definition farAppt (s : Status) : Appointment :=
  {| _id := idC; doctorId := DoctorId "d1"; userId := "u1";
     date := 200000000; status := s; createdAt := 10; updatedAt := 10 |}.

Definition testPage (st : State) : Page :=
  {| service := st; listed := [appt idA confirmed; appt idB pending];
     successfulAppointmentEndpoint := None |}.

(** * Properties *)

Example trim_example : Js.trim "  64b7f0c2a1d3e4f5a6b7c8d9 " = "64b7f0c2a1d3e4f5a6b7c8d9".
Proof. reflexivity. Qed.

Example replaceId_path :
  Js.replaceId "http://h/api/appointments/64b7f0c2a1d3e4f5a6b7c8d9" "/0123456789"
  = "http://h/api/appointments/0123456789".
Proof. reflexivity. Qed.

(** The query forms of the endpoint list carry no path segment to replace. *)
Example replaceId_query :
  Js.replaceId "http://h/api/appointments?id=64b7f0c2a1d3e4f5a6b7c8d9" "/0123456789"
  = "http://h/api/appointments?id=64b7f0c2a1d3e4f5a6b7c8d9".
Proof. reflexivity. Qed.

(** A match that ends in ["/"] takes that character with it. *)
Example replaceId_inner_segment :
  Js.replaceId "http://h/api/appointments/64b7f0c2a1d3e4f5a6b7c8d9/status" "/0123456789"
  = "http://h/api/appointments/0123456789status".
Proof. reflexivity. Qed.

(** ** The identifier replacement *)

Lemma list_ascii_app (a b : string) :
  String.list_ascii_of_string (a +:+ b)
  = String.list_ascii_of_string a ++ String.list_ascii_of_string b.
Proof. induction a as [|c a IH]; simpl; [done|]. by rewrite IH. Qed.

Lemma string_of_list_app (a b : list ascii) :
  String.string_of_list_ascii (a ++ b)
  = String.string_of_list_ascii a +:+ String.string_of_list_ascii b.
Proof. induction a as [|c a IH]; simpl; [done|]. by rewrite IH. Qed.

Lemma length_list_ascii (a : string) :
  length (String.list_ascii_of_string a) = String.length a.
Proof. induction a as [|c a IH]; simpl; [done|]. by rewrite IH. Qed.

Lemma findId_skip (p s seen : list ascii) :
  (∀ i, (i < length p)%nat → Js.matchIdAt (drop i (p ++ s)) = None) →
  Js.findId seen (p ++ s) = Js.findId (rev p ++ seen) s.
Proof.
  revert seen. induction p as [|c p IH]; intros seen H; [done|].
  assert (H0 : Js.matchIdAt (c :: p ++ s) = None) by (apply (H 0%nat); simpl; lia).
  change ((c :: p) ++ s) with (c :: (p ++ s)).
  cbn [Js.findId]. rewrite H0. rewrite IH.
  - simpl rev. by rewrite <- app_assoc.
  - intros i Hi. apply (H (S i)). simpl. lia.
Qed.

Lemma matchIdAt_trailing (old : list ascii) :
  length old = 24%nat → forallb Js.isHexLower old = true →
  Js.matchIdAt ("/"%char :: old) = Some 25%nat.
Proof.
  intros Hlen Hhex. unfold Js.matchIdAt.
  rewrite take_ge, drop_ge by lia. rewrite Hhex, Hlen. done.
Qed.

Lemma getSubstitution_plain (matched before after template : list ascii) :
  "$"%char ∉ template → Js.getSubstitution matched before after template = template.
Proof.
  induction template as [|c t IH]; intros H; [done|]. simpl.
  rewrite bool_decide_eq_false_2.
  - f_equal. apply IH. intros Hin. apply H. by right.
  - intros ->. apply H. by left.
Qed.

(** On a URL that ends in ["/"] and an identifier of twenty-four hexadecimal
    digits, with no earlier match, the replacement puts the new identifier
    in the place of the old one. *)
Lemma replaceId_trailing (prefix old cleanId : string) :
  isObjectId old →
  noIdWithin (String.length prefix) (prefix +:+ "/" +:+ old) →
  noDollar cleanId →
  Js.replaceId (prefix +:+ "/" +:+ old) ("/" +:+ cleanId) = prefix +:+ "/" +:+ cleanId.
Proof.
  intros [Hlen Hhex] Hno Hd. unfold Js.replaceId, noIdWithin, noDollar in *.
  rewrite !list_ascii_app in *.
  change (String.list_ascii_of_string "/") with ["/"%char] in *.
  assert (Hl : length (String.list_ascii_of_string old) = 24%nat)
    by (by rewrite length_list_ascii).
  remember (String.list_ascii_of_string old) as o eqn:Ho.
  remember (String.list_ascii_of_string cleanId) as n eqn:Hn.
  remember (String.list_ascii_of_string prefix) as q eqn:Hq.
  rewrite findId_skip.
  - change (["/"%char] ++ o) with ("/"%char :: o).
    destruct o as [|c o']; [done|].
    cbn [Js.findId]. rewrite matchIdAt_trailing by done.
    rewrite take_ge, drop_ge by (simpl in *; lia).
    rewrite getSubstitution_plain.
    + rewrite app_nil_r, app_nil_r, rev_involutive.
      rewrite string_of_list_app. subst q.
      rewrite String.string_of_list_ascii_of_string.
      change (["/"%char] ++ n) with ("/"%char :: n). cbn [String.string_of_list_ascii].
      subst n. by rewrite String.string_of_list_ascii_of_string.
    + intros [?|?]%elem_of_cons; [done|]. by apply Hd.
  - intros i Hi. apply Hno. subst q. by rewrite <- length_list_ascii.
Qed.

(** ** The sort *)

Lemma insertByTimestamp_perm x l : insertByTimestamp x l ≡ₚ x :: l.
Proof.
  induction l as [|y l IH]; simpl; [done|].
  destruct (op_timestamp x <=? op_timestamp y); [done|].
  rewrite IH. apply Permutation_swap.
Qed.

Lemma sortByTimestamp_perm l : sortByTimestamp l ≡ₚ l.
Proof.
  induction l as [|x l IH]; simpl; [done|].
  rewrite insertByTimestamp_perm. by constructor.
Qed.

Lemma oldestFirst_cons x l :
  oldestFirst (x :: l) ↔ (∀ y, y ∈ l → op_timestamp x <= op_timestamp y) ∧ oldestFirst l.
Proof.
  split.
  - intros H. split.
    + intros y [j Hj]%list_elem_of_lookup. apply (H 0%nat (S j)); [lia|done|done].
    + intros i j a b Hij Ha Hb. apply (H (S i) (S j)); [lia|done|done].
  - intros [Hx Hl] [|i] [|j] a b Hij Ha Hb; simpl in *; try lia.
    + injection Ha as <-. apply Hx. by eapply list_elem_of_lookup_2.
    + apply (Hl i j); [lia|done|done].
Qed.

Lemma insertByTimestamp_oldestFirst x l :
  oldestFirst l → oldestFirst (insertByTimestamp x l).
Proof.
  induction l as [|y l IH]; intros Hl; simpl.
  - apply oldestFirst_cons. split; [by intros ? ?%elem_of_nil|done].
  - destruct (Z.leb_spec (op_timestamp x) (op_timestamp y)) as [Hle|Hgt].
    + apply oldestFirst_cons. split; [|done].
      apply oldestFirst_cons in Hl as [Hy _].
      intros z [->|Hz]%elem_of_cons; [done|]. specialize (Hy z Hz). lia.
    + apply oldestFirst_cons in Hl as [Hy Hl].
      apply oldestFirst_cons. split; [|by apply IH].
      intros z Hz. rewrite insertByTimestamp_perm in Hz.
      apply elem_of_cons in Hz as [->|Hz]; [lia|by apply Hy].
Qed.

(** [sortedOperations] is in ascending order of time. *)
Lemma sortByTimestamp_oldestFirst l : oldestFirst (sortByTimestamp l).
Proof.
  induction l as [|x l IH]; simpl.
  - intros i j x y _ Hx. by rewrite lookup_nil in Hx.
  - by apply insertByTimestamp_oldestFirst.
Qed.

(** ** States *)

Lemma State_eq (a b : State) :
  pendingOperations a = pendingOperations b → isProcessing a = isProcessing b →
  lastSuccessfulEndpoint a = lastSuccessfulEndpoint b → MOCK_DATA a = MOCK_DATA b →
  localStorage a = localStorage b → onLine a = onLine b → now a = now b →
  requests a = requests b → passes a = passes b → a = b.
Proof. destruct a, b; simpl; intros; by subst. Qed.

Ltac state_eq := apply State_eq; simpl; try done.

Ltac pass_fields :=
  cbn [operation remaining operationsToRemove headers endpoint endpoints
       lastError settlement].

#[local] Instance networkOnly_refl : Reflexive networkOnly.
Proof.
  intros st. repeat split. exists []. by rewrite app_nil_r.
Qed.

#[local] Instance networkOnly_trans : Transitive networkOnly.
Proof.
  intros a b c (?&?&?&?&?&?&?&m1&?) (?&?&?&?&?&?&?&m2&?).
  repeat split; try congruence.
  exists (m1 ++ m2). rewrite app_assoc. congruence.
Qed.

Section Properties.
Context {env : Environment}.

(** ** The endpoint loop *)

Lemma axios_networkOnly req st : networkOnly st (axios req st).2.
Proof. repeat split. by exists [req]. Qed.

Lemma set_lastSuccessfulEndpoint_networkOnly v st :
  networkOnly st (set_lastSuccessfulEndpoint v st).
Proof. repeat split. exists []. simpl. by rewrite app_nil_r. Qed.

Lemma tryEndpoints_networkOnly eps hdrs s lastErr st :
  networkOnly st (tryEndpoints eps hdrs s lastErr st).2.
Proof.
  revert lastErr st. induction eps as [|e eps IH]; intros lastErr st; simpl; [done|].
  destruct (respond (requests st) (statusRequest e hdrs s)) as [[|data]|error]; simpl.
  - etrans; [apply (axios_networkOnly (statusRequest e hdrs s))|].
    etrans; [apply set_lastSuccessfulEndpoint_networkOnly|]. apply IH.
  - etrans; [apply (axios_networkOnly (statusRequest e hdrs s))|].
    apply set_lastSuccessfulEndpoint_networkOnly.
  - etrans; [apply (axios_networkOnly (statusRequest e hdrs s))|]. apply IH.
Qed.

Lemma allRejected_allFailed reqs history :
  allRejected reqs history = true → allFailed reqs history = true.
Proof.
  revert history. induction reqs as [|r rs IH]; intros history; simpl; [done|].
  destruct (respond history r) as [?|?]; [done|apply IH].
Qed.

Lemma allUnavailable_allRejected reqs history :
  allUnavailable reqs history = true → allRejected reqs history = true.
Proof.
  revert history. induction reqs as [|r rs IH]; intros history; simpl; [done|].
  destruct (respond history r) as [?|?]; [done|].
  intros [_ H]%andb_prop. by apply IH.
Qed.

(** When every request of the loop is rejected, the loop ends with an
    error, each endpoint has been asked once, in order, and
    [lastSuccessfulEndpoint] is as before. *)
Lemma tryEndpoints_allRejected eps hdrs s lastErr st :
  allRejected (map (λ e, statusRequest e hdrs s) eps) (requests st) = true →
  ∃ err, tryEndpoints eps hdrs s lastErr st
         = (inr err, set_requests (requests st ++ map (λ e, statusRequest e hdrs s) eps) st).
Proof.
  revert lastErr st. induction eps as [|e eps IH]; intros lastErr st; simpl.
  - intros _. exists lastErr. f_equal. state_eq. by rewrite app_nil_r.
  - destruct (respond (requests st) (statusRequest e hdrs s)) as [data|error]; [done|].
    intros Hrej.
    destruct (IH (Some (AxiosException error))
                (set_requests (requests st ++ [statusRequest e hdrs s]) st) Hrej)
      as [err ->].
    exists err. f_equal. state_eq. by rewrite <- app_assoc.
Qed.

(** When no request of the loop gives a result, the loop ends with an
    error and each endpoint has been asked once, in order. *)
Lemma tryEndpoints_allFailed eps hdrs s lastErr st :
  allFailed (map (λ e, statusRequest e hdrs s) eps) (requests st) = true →
  ∃ err st', tryEndpoints eps hdrs s lastErr st = (inr err, st')
    ∧ requests st' = requests st ++ map (λ e, statusRequest e hdrs s) eps.
Proof.
  revert lastErr st. induction eps as [|e eps IH]; intros lastErr st; simpl.
  - intros _. exists lastErr, st. by rewrite app_nil_r.
  - destruct (respond (requests st) (statusRequest e hdrs s)) as [[|data]|error]; [|done|];
      intros Hrej.
    + destruct (IH (Some noBodyError)
                  (set_lastSuccessfulEndpoint (Some e)
                     (set_requests (requests st ++ [statusRequest e hdrs s]) st)) Hrej)
        as (err & st' & -> & Hreq).
      exists err, st'. split; [done|]. rewrite Hreq. simpl. by rewrite <- app_assoc.
    + destruct (IH (Some (AxiosException error))
                  (set_requests (requests st ++ [statusRequest e hdrs s]) st) Hrej)
        as (err & st' & -> & Hreq).
      exists err, st'. split; [done|]. rewrite Hreq. simpl. by rewrite <- app_assoc.
Qed.

(** When the requests of [failed] give no result and the request of [e]
    resolves with a body, the loop returns the data of [e] and stores [e];
    the endpoints after [e] are not asked. *)
Lemma tryEndpoints_first_resolved failed e rest data hdrs s lastErr st :
  allFailed (map (λ e, statusRequest e hdrs s) failed) (requests st) = true →
  respond (requests st ++ map (λ e, statusRequest e hdrs s) failed) (statusRequest e hdrs s)
  = Resolved (WithData data) →
  tryEndpoints (failed ++ e :: rest) hdrs s lastErr st
  = (inl data,
     set_lastSuccessfulEndpoint (Some e)
       (set_requests
          (requests st ++ map (λ e, statusRequest e hdrs s) (failed ++ [e])) st)).
Proof.
  revert lastErr st. induction failed as [|f failed IH]; intros lastErr st; simpl.
  - intros _. rewrite app_nil_r. intros ->. done.
  - destruct (respond (requests st) (statusRequest f hdrs s)) as [[|?]|error]; [|done|];
      intros Hrej Hres.
    + rewrite (IH (Some noBodyError)
                 (set_lastSuccessfulEndpoint (Some f)
                    (set_requests (requests st ++ [statusRequest f hdrs s]) st)) Hrej).
      * f_equal. state_eq. by rewrite <- app_assoc.
      * simpl. by rewrite <- app_assoc.
    + rewrite (IH (Some (AxiosException error))
                 (set_requests (requests st ++ [statusRequest f hdrs s]) st) Hrej).
      * f_equal. state_eq. by rewrite <- app_assoc.
      * simpl. by rewrite <- app_assoc.
Qed.

(** The requests of the loop are those of its endpoints, in order, up to the
    one that resolves. *)
Lemma tryEndpoints_prefix eps hdrs s lastErr st :
  ∃ k, requests (tryEndpoints eps hdrs s lastErr st).2
       = requests st ++ map (λ e, statusRequest e hdrs s) (take k eps).
Proof.
  revert lastErr st. induction eps as [|e eps IH]; intros lastErr st; simpl.
  - exists 0%nat. by rewrite app_nil_r.
  - destruct (respond (requests st) (statusRequest e hdrs s)) as [[|data]|error]; simpl.
    + destruct (IH (Some noBodyError)
                  (set_lastSuccessfulEndpoint (Some e)
                     (set_requests (requests st ++ [statusRequest e hdrs s]) st)))
        as [k Hk].
      exists (S k). rewrite Hk. simpl. by rewrite <- app_assoc.
    + by exists 1%nat.
    + destruct (IH (Some (AxiosException error))
                  (set_requests (requests st ++ [statusRequest e hdrs s]) st))
        as [k Hk].
      exists (S k). rewrite Hk. simpl. by rewrite <- app_assoc.
Qed.

Lemma syncAppointmentToDatabase_networkOnly id s st :
  networkOnly st (syncAppointmentToDatabase id s st).2.
Proof. apply tryEndpoints_networkOnly. Qed.

Lemma allSynced_networkOnly ops st st1 :
  allSynced ops st = Some st1 → networkOnly st st1.
Proof.
  revert st. induction ops as [|op ops IH]; intros st; simpl.
  - by intros [= ->].
  - pose proof (syncAppointmentToDatabase_networkOnly (op_id op) (op_status op) st) as Hn.
    destruct (syncAppointmentToDatabase (op_id op) (op_status op) st) as [[?|?] st2]; [|done].
    intros H. etrans; [exact Hn|]. by apply IH.
Qed.

(** ** The drain pass *)


(** The loop stops at the first operation that fails: the operations after
    it are not visited. *)
Lemma syncOperations_stops succeeded failed rest toRemove st st1 :
  allSynced succeeded st = Some st1 →
  (∃ e, (syncAppointmentToDatabase (op_id failed) (op_status failed) st1).1 = inr e) →
  syncOperations (succeeded ++ failed :: rest) toRemove st
  = (toRemove ++ map op_id succeeded,
     (syncAppointmentToDatabase (op_id failed) (op_status failed) st1).2).
Proof.
  revert toRemove st. induction succeeded as [|op ops IH]; intros toRemove st; simpl.
  - intros [= ->] [e He]. rewrite app_nil_r.
    destruct (syncAppointmentToDatabase (op_id failed) (op_status failed) st1) as [[?|?] ?];
      simpl in *; [done|done].
  - destruct (syncAppointmentToDatabase (op_id op) (op_status op) st) as [[?|?] st2]; [|done].
    intros H Hf. rewrite (IH _ _ H Hf). by rewrite <- app_assoc.
Qed.

Lemma filter_none_removed (toRemove : list string) (l : list PendingOperation) :
  (∀ op, op ∈ l → op_id op ∉ toRemove) →
  filter (λ op, op_id op ∉ toRemove) l = l.
Proof.
  induction l as [|x l IH]; intros H; [done|].
  rewrite filter_cons_True; [|apply H; by left].
  f_equal. apply IH. intros op Hop. apply H. by right.
Qed.

Lemma filter_all_removed (toRemove : list string) (l : list PendingOperation) :
  (∀ op, op ∈ l → op_id op ∈ toRemove) →
  filter (λ op, op_id op ∉ toRemove) l = [].
Proof.
  induction l as [|x l IH]; intros H; [done|].
  rewrite filter_cons_False; [|intros Hn; apply Hn, H; by left].
  apply IH. intros op Hop. apply H. by right.
Qed.

(** The queue a pass leaves, whether or not it had something to remove. *)
Lemma finishPass_queue toRemove st :
  pendingOperations (finishPass toRemove st)
  = filter (λ op, op_id op ∉ toRemove) (pendingOperations st).
Proof.
  unfold finishPass. destruct toRemove as [|x l]; simpl; [|done].
  symmetry. apply filter_none_removed. intros op _. apply not_elem_of_nil.
Qed.

Lemma sortByTimestamp_nonempty l : sortByTimestamp l ≠ [] → (length l =? 0)%nat = false.
Proof. destruct l; [done|]. intros _. done. Qed.

(** The operations that stay when a prefix of the sorted queue is removed
    by identifier: with one entry per identifier these are the operations
    outside the prefix, as many as the others of the sorted queue. *)
Lemma removed_prefix (queue succeeded others : list PendingOperation) :
  NoDup (map op_id queue) →
  sortByTimestamp queue = succeeded ++ others →
  let kept := filter (λ op, op_id op ∉ map op_id succeeded) queue in
  (∀ op, op ∈ kept ↔ op ∈ queue ∧ op ∉ succeeded)
  ∧ kept ≡ₚ others
  ∧ sublist kept queue.
Proof.
  intros Hnd Hsort kept.
  assert (Hperm : queue ≡ₚ succeeded ++ others).
  { rewrite <- Hsort. symmetry. apply sortByTimestamp_perm. }
  assert (Hids : NoDup (map op_id (succeeded ++ others))).
  { by rewrite <- Hperm. }
  rewrite fmap_app in Hids. apply NoDup_app in Hids as (_ & Hdisj & _).
  split; [|split].
  - intros op. unfold kept. rewrite list_elem_of_filter. split.
    + intros [Hn Hin]. split; [done|]. intros Hs. apply Hn. by apply list_elem_of_fmap_2.
    + intros [Hin Hn]. split; [|done]. intros Hid.
      rewrite Hperm in Hin. apply elem_of_app in Hin as [Hin|Hin]; [done|].
      apply (Hdisj (op_id op)); [done|by apply list_elem_of_fmap_2].
  - unfold kept. rewrite Hperm, filter_app.
    rewrite filter_all_removed; [|intros op Hop; by apply list_elem_of_fmap_2].
    rewrite filter_none_removed; [done|].
    intros op Hop Hid. apply (Hdisj (op_id op)); [done|by apply list_elem_of_fmap_2].
  - apply sublist_filter.
Qed.

(** C1. A pass over a queue with one entry per identifier, in which the
    first operations [succeeded] of the oldest-first order are synced and
    the next one, [failed], is not: the pass removes the operations of
    [succeeded] and no other, the ones that stay (as many as the queue had
    beyond [succeeded], [failed] among them) keep their order in the queue,
    and no request is made after the last one for [failed]. *)
Theorem syncPendingOperations_stops_at_first_failure
    (st st1 : State) (succeeded : list PendingOperation)
    (failed : PendingOperation) (rest : list PendingOperation) :
  isProcessing st = false →
  onLine st = true →
  NoDup (map op_id (pendingOperations st)) →
  sortByTimestamp (pendingOperations st) = succeeded ++ failed :: rest →
  allSynced succeeded (set_isProcessing true st) = Some st1 →
  (∃ e, (syncAppointmentToDatabase (op_id failed) (op_status failed) st1).1 = inr e) →
  let st' := syncPendingOperations st in
  pendingOperations st'
    = filter (λ op, op_id op ∉ map op_id succeeded) (pendingOperations st)
  ∧ (∀ op, op ∈ pendingOperations st' ↔ op ∈ pendingOperations st ∧ op ∉ succeeded)
  ∧ length (pendingOperations st')
    = (length (pendingOperations st) - length succeeded)%nat
  ∧ sublist (pendingOperations st') (pendingOperations st)
  ∧ failed ∈ pendingOperations st'
  ∧ (∀ op, op ∈ rest → op ∈ pendingOperations st')
  ∧ requests st'
    = requests (syncAppointmentToDatabase (op_id failed) (op_status failed) st1).2
  ∧ isProcessing st' = false.
Proof.
  intros Hidle Hon Hnd Hsort Hok Hfail st'.
  set (st2 := (syncAppointmentToDatabase (op_id failed) (op_status failed) st1).2).
  assert (Hst' : st' = finishPass (map op_id succeeded) st2).
  { unfold st', syncPendingOperations, passRefused.
    rewrite Hidle, Hon, sortByTimestamp_nonempty; simpl.
    - rewrite Hsort, (syncOperations_stops _ _ _ _ _ _ Hok Hfail). done.
    - rewrite Hsort. by destruct succeeded. }
  assert (Hq : pendingOperations st2 = pendingOperations st).
  { pose proof (allSynced_networkOnly _ _ _ Hok) as (H1 & _).
    pose proof (syncAppointmentToDatabase_networkOnly (op_id failed) (op_status failed) st1)
      as (H2 & _).
    unfold st2. by rewrite H2, H1. }
  destruct (removed_prefix _ _ _ Hnd Hsort) as (Hin & Hperm & Hsub).
  assert (Hqueue : pendingOperations st'
                   = filter (λ op, op_id op ∉ map op_id succeeded) (pendingOperations st)).
  { by rewrite Hst', finishPass_queue, Hq. }
  rewrite Hqueue. split_and!.
  - done.
  - apply Hin.
  - rewrite Hperm. rewrite <- (sortByTimestamp_perm (pendingOperations st)) at 1.
    rewrite Hsort, length_app. lia.
  - done.
  - rewrite Hperm. by left.
  - intros op Hop. rewrite Hperm. by right.
  - rewrite Hst'. unfold finishPass.
    by destruct (0 <? length (map op_id succeeded))%nat.
  - rewrite Hst'. unfold finishPass.
    by destruct (0 <? length (map op_id succeeded))%nat.
Qed.

(** ** The pass as a coroutine *)

Lemma set_passes_id st : passes st = [] → set_passes [] st = st.
Proof. intros H. state_eq. Qed.

Lemma settles_add n m st : settles (n + m) st = settles m (settles n st).
Proof. revert st. induction n as [|n IH]; intros st; simpl; [done|apply IH]. Qed.

Lemma settles_idle n st : passes st = [] → settles n st = st.
Proof.
  intros H. induction n as [|n IH]; simpl; [done|].
  unfold settle. by rewrite H.
Qed.

Lemma settle_suspendOn op rest toRemove hdrs e eps lastErr st :
  passes st = [] →
  settle (suspendOn op rest toRemove hdrs e eps lastErr st)
  = resume {| operation := op; remaining := rest; operationsToRemove := toRemove;
              headers := hdrs; endpoint := e; endpoints := eps; lastError := lastErr;
              settlement := respond (requests st) (statusRequest e hdrs (op_status op)) |}
      (axios (statusRequest e hdrs (op_status op)) st).2.
Proof.
  intros H. unfold suspendOn, settle, axios. simpl. rewrite H. simpl.
  f_equal. state_eq.
Qed.

Lemma tryEndpoints_cons e eps hdrs s lastErr st :
  tryEndpoints (e :: eps) hdrs s lastErr st
  = (let '(response, st1) := axios (statusRequest e hdrs s) st in
     match response with
     | Resolved body =>
         let st2 := set_lastSuccessfulEndpoint (Some e) st1 in
         match body with
         | WithData data => (inl data, st2)
         | NoBody => tryEndpoints eps hdrs s (Some noBodyError) st2
         end
     | Rejected error => tryEndpoints eps hdrs s (Some (AxiosException error)) st1
     end).
Proof. done. Qed.

(** The settlements of the requests of one operation take the pass where
    the endpoint loop takes it. *)
Lemma settles_operation op rest toRemove hdrs e eps lastErr st :
  passes st = [] →
  ∃ n, (n ≤ S (length eps))%nat ∧
    settles n (suspendOn op rest toRemove hdrs e eps lastErr st)
    = match tryEndpoints (e :: eps) hdrs (op_status op) lastErr st with
      | (inl _, st1) => nextOperation rest (toRemove ++ [op_id op]) st1
      | (inr _, st1) => finishPass toRemove st1
      end.
Proof.
  revert e lastErr st. induction eps as [|e' eps IH]; intros e lastErr st Hp.
  - exists 1%nat. split; [simpl; lia|]. simpl settles.
    rewrite settle_suspendOn by done. unfold resume, nextEndpoint. simpl.
    by destruct (respond (requests st) (statusRequest e hdrs (op_status op))) as [[|?]|?].
  - rewrite tryEndpoints_cons.
    destruct (respond (requests st) (statusRequest e hdrs (op_status op)))
      as [[|data]|error] eqn:Hr.
    + destruct (IH e' (Some noBodyError)
                  (set_lastSuccessfulEndpoint (Some e)
                     (axios (statusRequest e hdrs (op_status op)) st).2) Hp)
        as (n & Hn & Hrun).
      exists (S n). split; [simpl; lia|]. simpl settles.
      rewrite settle_suspendOn by done. unfold resume, nextEndpoint. pass_fields.
      rewrite Hr. cbv beta iota zeta. rewrite Hrun. unfold axios at 2. by rewrite Hr.
    + exists 1%nat. split; [simpl; lia|]. simpl settles.
      rewrite settle_suspendOn by done. unfold resume. pass_fields.
      rewrite Hr. unfold axios at 2. by rewrite Hr.
    + destruct (IH e' (Some (AxiosException error))
                  (axios (statusRequest e hdrs (op_status op)) st).2 Hp)
        as (n & Hn & Hrun).
      exists (S n). split; [simpl; lia|]. simpl settles.
      rewrite settle_suspendOn by done. unfold resume, nextEndpoint. pass_fields.
      rewrite Hr. rewrite Hrun. unfold axios at 2. by rewrite Hr.
Qed.

Lemma syncEndpoints_cons cleanId : ∃ e eps, syncEndpoints cleanId = e :: eps ∧ length eps = 4%nat.
Proof. by eexists _, _. Qed.

(** The settlements of a pass take it where the loop over the sorted
    operations takes it; five per operation are enough. *)
Lemma settles_pass sortedOperations toRemove st :
  passes st = [] →
  ∃ n, (n ≤ 5 * length sortedOperations)%nat ∧
    settles n (nextOperation sortedOperations toRemove st)
    = (let '(toRemove', st2) := syncOperations sortedOperations toRemove st in
       finishPass toRemove' st2).
Proof.
  revert toRemove st. induction sortedOperations as [|op rest IH]; intros toRemove st Hp.
  - exists 0%nat. done.
  - destruct (syncEndpoints_cons (Js.trim (op_id op))) as (e & eps & Heps & Hlen).
    unfold nextOperation. rewrite Heps.
    destruct (settles_operation op rest toRemove (authHeader (localStorage st)) e eps None st Hp)
      as (n1 & Hn1 & Hrun1).
    simpl syncOperations. unfold syncAppointmentToDatabase. rewrite Heps.
    pose proof (tryEndpoints_networkOnly (e :: eps) (authHeader (localStorage st))
                  (op_status op) None st) as Hnet.
    destruct (tryEndpoints (e :: eps) (authHeader (localStorage st)) (op_status op) None st)
      as [[data|err] st1].
    + destruct Hnet as (_&_&_&_&_&_&Hp1&_). simpl in Hp1.
      destruct (IH (toRemove ++ [op_id op]) st1) as (n2 & Hn2 & Hrun2); [congruence|].
      exists (n1 + n2)%nat. split; [simpl length; lia|].
      rewrite settles_add, Hrun1. exact Hrun2.
    + exists n1. split; [simpl length; lia|]. exact Hrun1.
Qed.

Lemma finishPass_passes toRemove st : passes (finishPass toRemove st) = passes st.
Proof. unfold finishPass. by destruct (0 <? length toRemove)%nat. Qed.

Lemma syncOperations_networkOnly ops toRemove st :
  networkOnly st (syncOperations ops toRemove st).2.
Proof.
  revert toRemove st. induction ops as [|op ops IH]; intros toRemove st; simpl; [done|].
  pose proof (syncAppointmentToDatabase_networkOnly (op_id op) (op_status op) st) as Hn.
  destruct (syncAppointmentToDatabase (op_id op) (op_status op) st) as [[?|?] st1]; simpl in *.
  - etrans; [exact Hn|apply IH].
  - done.
Qed.

(** A pass that is called and whose requests all settle, with nothing else
    in between, ends in the state of the awaited pass; five settlements per
    queued operation are enough, and further ones change nothing. *)
Lemma syncPendingOperations_settles st m :
  passes st = [] →
  (5 * length (pendingOperations st) ≤ m)%nat →
  settles m (callSyncPendingOperations st) = syncPendingOperations st.
Proof.
  intros Hp Hm. unfold callSyncPendingOperations, syncPendingOperations.
  destruct (passRefused st); [by apply settles_idle|].
  set (st1 := set_isProcessing true st).
  destruct (settles_pass (sortByTimestamp (pendingOperations st1)) [] st1 Hp)
    as (n & Hn & Hrun).
  assert (Hlen : length (sortByTimestamp (pendingOperations st1)) = length (pendingOperations st)).
  { by rewrite sortByTimestamp_perm. }
  replace m with (n + (m - n))%nat by lia.
  rewrite settles_add, Hrun.
  pose proof (syncOperations_networkOnly (sortByTimestamp (pendingOperations st1)) [] st1) as Hnet.
  destruct (syncOperations (sortByTimestamp (pendingOperations st1)) [] st1) as [toRemove st2].
  apply settles_idle. rewrite finishPass_passes.
  destruct Hnet as (_&_&_&_&_&_&Hp2&_). simpl in Hp2. congruence.
Qed.

(** ** One pass at a time *)

Lemma onePass_same st st' :
  isProcessing st' = isProcessing st → passes st' = passes st → onePass st → onePass st'.
Proof. unfold onePass. by intros -> ->. Qed.

Lemma onePass_networkOnly st st' : networkOnly st st' → onePass st → onePass st'.
Proof. intros (_&H1&_&_&_&_&H2&_). by apply onePass_same. Qed.

Lemma finishPass_onePass toRemove st : passes st = [] → onePass (finishPass toRemove st).
Proof.
  intros H. unfold onePass. rewrite finishPass_passes, H.
  unfold finishPass. by destruct (0 <? length toRemove)%nat.
Qed.

Lemma suspendOn_onePass op rest toRemove hdrs e eps lastErr st :
  passes st = [] → isProcessing st = true →
  onePass (suspendOn op rest toRemove hdrs e eps lastErr st).
Proof. intros Hp Hi. unfold onePass, suspendOn. simpl. by rewrite Hp. Qed.

Lemma nextOperation_onePass sortedOperations toRemove st :
  passes st = [] → isProcessing st = true →
  onePass (nextOperation sortedOperations toRemove st).
Proof.
  intros Hp Hi. destruct sortedOperations as [|op rest]; simpl.
  - by apply finishPass_onePass.
  - by apply suspendOn_onePass.
Qed.

Lemma callSyncPendingOperations_onePass st :
  onePass st → onePass (callSyncPendingOperations st).
Proof.
  intros H. unfold callSyncPendingOperations, passRefused.
  destruct (isProcessing st) eqn:Hi; [done|]. simpl.
  destruct (_ || _); [done|].
  apply nextOperation_onePass; [|done]. simpl.
  unfold onePass in H. destruct (passes st) as [|? [|? ?]]; [done|congruence|done].
Qed.

Lemma settle_onePass st : onePass st → onePass (settle st).
Proof.
  intros H. unfold settle. unfold onePass in H.
  destruct (passes st) as [|p [|? ?]] eqn:Hp; [by unfold onePass; rewrite Hp| |done].
  unfold resume, nextEndpoint.
  destruct (settlement p) as [[|?]|?]; [destruct (endpoints p)| |destruct (endpoints p)].
  - by apply finishPass_onePass.
  - by apply suspendOn_onePass.
  - by apply nextOperation_onePass.
  - by apply finishPass_onePass.
  - by apply suspendOn_onePass.
Qed.

Lemma addPendingOperation_onePass id s st :
  onePass st → onePass (addPendingOperation id s st).
Proof.
  intros H. unfold addPendingOperation.
  match goal with |- onePass (if _ then callSyncPendingOperations ?a else _) =>
    assert (onePass a) as Ha by (by apply (onePass_same st)) end.
  destruct (onLine _); [by apply callSyncPendingOperations_onePass|done].
Qed.

Lemma tryLastSuccessful_networkOnly cleanId hdrs s st :
  networkOnly st (tryLastSuccessful cleanId hdrs s st).2.
Proof.
  unfold tryLastSuccessful. destruct (lastSuccessfulEndpoint st) as [last|]; [|done].
  simpl. destruct (respond _ _) as [[|?]|?]; simpl; repeat split; by eexists [_].
Qed.

Lemma offlineFallback_onePass cleanId s st :
  onePass st → onePass (offlineFallback cleanId s st).2.
Proof.
  intros H. unfold offlineFallback.
  pose proof (addPendingOperation_onePass cleanId s st H) as H1.
  set (st1 := addPendingOperation cleanId s st) in *. simpl.
  destruct (readCachedAppointments _); by apply (onePass_same st1).
Qed.

Lemma updateAppointmentStatus_onePass id s st :
  onePass st → onePass (updateAppointmentStatus id s st).2.
Proof.
  intros H. unfold updateAppointmentStatus, updateAppointmentStatus_try.
  destruct (tokenMissing _); [done|].
  destruct (_ || _); [done|].
  pose proof (tryLastSuccessful_networkOnly (Js.trim id) (authHeader (localStorage st)) s st) as H1.
  destruct (tryLastSuccessful _ _ _ _) as [[data|] st1]; simpl in H1.
  - by apply (onePass_networkOnly st).
  - pose proof (tryEndpoints_networkOnly (updateEndpoints (Js.trim id))
                  (authHeader (localStorage st)) s None st1) as H2.
    destruct (tryEndpoints _ _ _ _ _) as [[data|err] st2]; simpl in H2.
    + apply (onePass_networkOnly st); [by etrans|done].
    + assert (onePass st2) as H3 by (apply (onePass_networkOnly st); [by etrans|done]).
      pose proof (offlineFallback_onePass (Js.trim id) s st2 H3) as H4.
      by destruct (offlineFallback _ _ _).
Qed.

Lemma getUserAppointments_onePass st : onePass st → onePass (getUserAppointments st).2.
Proof.
  intros H. unfold getUserAppointments.
  destruct (respondList _ _); simpl.
  - match goal with |- onePass (if _ then callSyncPendingOperations ?a else _) =>
      assert (onePass a) as Ha by (by apply (onePass_same st)) end.
    destruct (onLine st); [by apply callSyncPendingOperations_onePass|done].
  - destruct (readCachedAppointments _); by apply (onePass_same st).
Qed.

Lemma step_onePass ev st : onePass st → onePass (step ev st).
Proof.
  intros H. destruct ev; simpl.
  - by apply updateAppointmentStatus_onePass.
  - by apply getUserAppointments_onePass.
  - by apply addPendingOperation_onePass.
  - by apply callSyncPendingOperations_onePass.
  - by apply (onePass_same st).
  - by apply settle_onePass.
  - by apply (onePass_same st).
  - by apply (onePass_same st).
Qed.

Lemma run_onePass evs st : onePass st → onePass (run evs st).
Proof.
  revert st. induction evs as [|ev evs IH]; intros st H; [done|].
  simpl. by apply IH, step_onePass.
Qed.

(** C7. In every state the service can reach, at most one pass is
    suspended; and when [isProcessing] is set, a call of
    [syncPendingOperations], awaited or not, returns at once: the state,
    with its queue, its cache and the record of the requests made, is the
    one before the call. *)
Theorem syncPendingOperations_one_pass_at_a_time
    (ls : LocalStorage) (online : bool) (time : Z) (evs : list Event) :
  let st := run evs (initialState ls online time) in
  (length (passes st) ≤ 1)%nat
  ∧ (passes st ≠ [] → isProcessing st = true)
  ∧ (isProcessing st = true →
     callSyncPendingOperations st = st ∧ syncPendingOperations st = st).
Proof.
  intros st.
  assert (H : onePass st) by (by apply run_onePass).
  unfold onePass in H. split_and!.
  - destruct (passes st) as [|? [|? ?]]; simpl; [lia|lia|done].
  - destruct (passes st) as [|? [|? ?]]; [done|done|done].
  - intros Hi. unfold callSyncPendingOperations, syncPendingOperations, passRefused.
    by rewrite Hi.
Qed.

(** ** The queue *)

(** A call that is not awaited leaves the queue, the storage and the mock
    table as they are: it sets the flag and sends the first request. *)
Lemma callSyncPendingOperations_frame st :
  let st' := callSyncPendingOperations st in
  pendingOperations st' = pendingOperations st
  ∧ localStorage st' = localStorage st
  ∧ MOCK_DATA st' = MOCK_DATA st
  ∧ lastSuccessfulEndpoint st' = lastSuccessfulEndpoint st
  ∧ now st' = now st ∧ onLine st' = onLine st.
Proof.
  unfold callSyncPendingOperations. destruct (passRefused st); [done|].
  simpl. destruct (sortByTimestamp (pendingOperations st)); done.
Qed.

Lemma ids_insert (l : list PendingOperation) i x entry :
  l !! i = Some x → op_id x = op_id entry →
  map op_id (<[i := entry]> l) = map op_id l.
Proof.
  intros Hi Hid. rewrite list_fmap_insert. apply list_insert_id.
  by rewrite list_lookup_fmap, Hi, <- Hid.
Qed.

Lemma addPendingOperation_queue id s st :
  pendingOperations (addPendingOperation id s st)
  = enqueued id s (now st) (pendingOperations st).
Proof.
  unfold addPendingOperation, enqueued. destruct (onLine _); [|done].
  match goal with |- context [callSyncPendingOperations ?a] =>
    destruct (callSyncPendingOperations_frame a) as (-> & _) end.
  done.
Qed.

Lemma addPendingOperation_frame id s st :
  let st' := addPendingOperation id s st in
  cachedAppointments (localStorage st') = cachedAppointments (localStorage st)
  ∧ token (localStorage st') = token (localStorage st)
  ∧ MOCK_DATA st' = MOCK_DATA st
  ∧ lastSuccessfulEndpoint st' = lastSuccessfulEndpoint st
  ∧ now st' = now st ∧ onLine st' = onLine st.
Proof.
  unfold addPendingOperation. destruct (onLine _) eqn:Hon; [|done].
  match goal with |- context [callSyncPendingOperations ?a] =>
    destruct (callSyncPendingOperations_frame a) as (_ & -> & -> & -> & -> & ->) end.
  done.
Qed.

Lemma enqueued_ids id s time l :
  map op_id (enqueued id s time l)
  = if bool_decide (id ∈ map op_id l) then map op_id l else map op_id l ++ [id].
Proof.
  unfold enqueued. destruct (list_find _ l) as [[i x]|] eqn:Hfind.
  - apply list_find_Some in Hfind as (Hi & Hx & _).
    rewrite bool_decide_eq_true_2.
    + by apply (ids_insert l i x).
    + rewrite <- Hx. apply list_elem_of_fmap_2. by eapply list_elem_of_lookup_2.
  - apply list_find_None in Hfind. rewrite bool_decide_eq_false_2.
    + by rewrite fmap_app.
    + intros (op & Hop & Hin)%list_elem_of_fmap.
      rewrite Forall_forall in Hfind. by apply (Hfind op).
Qed.

Lemma enqueued_NoDup id s time l :
  NoDup (map op_id l) → NoDup (map op_id (enqueued id s time l)).
Proof.
  intros H. rewrite enqueued_ids. case_bool_decide; [done|].
  apply NoDup_app. split_and!; [done| |apply NoDup_singleton].
  intros x Hx ->%list_elem_of_singleton. done.
Qed.

Lemma enqueued_entry id s time l :
  {| op_id := id; op_status := s; op_timestamp := time |} ∈ enqueued id s time l.
Proof.
  unfold enqueued. destruct (list_find _ l) as [[i x]|] eqn:Hfind.
  - apply list_find_Some in Hfind as (Hi & _).
    apply list_elem_of_lookup. exists i.
    apply list_lookup_insert_eq. by eapply lookup_lt_Some.
  - apply elem_of_app. right. by left.
Qed.

(** The entries of the other identifiers are the ones of before. *)
Lemma enqueued_others id s time l op :
  op_id op ≠ id → op ∈ enqueued id s time l ↔ op ∈ l.
Proof.
  intros Hne. unfold enqueued. destruct (list_find _ l) as [[i x]|] eqn:Hfind.
  - apply list_find_Some in Hfind as (Hi & Hx & _). split.
    + intros [j Hj]%list_elem_of_lookup.
      destruct (decide (i = j)) as [->|Hij].
      * rewrite list_lookup_insert_eq in Hj by (by eapply lookup_lt_Some).
        injection Hj as <-. done.
      * rewrite list_lookup_insert_ne in Hj by done. by eapply list_elem_of_lookup_2.
    + intros [j Hj]%list_elem_of_lookup.
      apply list_elem_of_lookup. exists j. rewrite list_lookup_insert_ne; [done|].
      intros <-. rewrite Hi in Hj. injection Hj as <-. done.
  - rewrite elem_of_app, list_elem_of_singleton. split; [|by left].
    intros [? | ->]; done.
Qed.

Lemma NoDup_ids_eq (l : list PendingOperation) a b :
  NoDup (map op_id l) → a ∈ l → b ∈ l → op_id a = op_id b → a = b.
Proof.
  intros Hnd [i Hi]%list_elem_of_lookup [j Hj]%list_elem_of_lookup Hid.
  assert (i = j) as ->.
  { apply (NoDup_lookup _ i j (op_id a) Hnd); rewrite list_lookup_fmap.
    - by rewrite Hi.
    - by rewrite Hj, Hid. }
  congruence.
Qed.

Lemma enqueueAll_snoc calls time id s st :
  enqueueAll (calls ++ [(time, id, s)]) st
  = addPendingOperation id s (set_now time (enqueueAll calls st)).
Proof. unfold enqueueAll. by rewrite foldl_app. Qed.

Lemma lastIntent_snoc id calls time id' s :
  lastIntent id (calls ++ [(time, id', s)])
  = if bool_decide (id' = id) then Some (time, s) else lastIntent id calls.
Proof. unfold lastIntent. by rewrite foldl_app. Qed.

(** C4. After any series of [addPendingOperation] calls on a queue with one
    entry per identifier, the queue has one entry per identifier, and the
    entry of an identifier named in the series is the one of the last call
    that named it: its status and its time. *)
Theorem addPendingOperation_last_intent_wins
    (calls : list (Z * string * Status)) (st : State) :
  NoDup (map op_id (pendingOperations st)) →
  let st' := enqueueAll calls st in
  NoDup (map op_id (pendingOperations st'))
  ∧ ∀ id time s, lastIntent id calls = Some (time, s) →
      let entry := {| op_id := id; op_status := s; op_timestamp := time |} in
      entry ∈ pendingOperations st'
      ∧ ∀ op, op ∈ pendingOperations st' → op_id op = id → op = entry.
Proof.
  intros Hst. induction calls as [|[[time' id'] s'] calls IH] using rev_ind.
  - split; [done|]. intros id time s [=].
  - destruct IH as [Hnd Hlast]. simpl.
    rewrite enqueueAll_snoc, addPendingOperation_queue. simpl.
    assert (Hnd' : NoDup (map op_id
              (enqueued id' s' time' (pendingOperations (enqueueAll calls st))))).
    { by apply enqueued_NoDup. }
    split; [done|].
    intros id time s. rewrite lastIntent_snoc. case_bool_decide as Hid.
    + intros [= <- <-]. subst id'. split; [apply enqueued_entry|].
      intros op Hop Hopid.
      apply (NoDup_ids_eq _ _ _ Hnd' Hop (enqueued_entry _ _ _ _)). done.
    + intros Hl. destruct (Hlast _ _ _ Hl) as [Hin Huniq]. split.
      * apply enqueued_others; [simpl; congruence|done].
      * intros op Hop Hopid. apply Huniq; [|done].
        eapply enqueued_others; [|exact Hop]. congruence.
Qed.

(** ** [updateAppointmentStatus] *)

Lemma guard_passed (cleanId : string) :
  (10 ≤ Js.length cleanId)%nat →
  negb (Js.truthy cleanId) || (Js.length cleanId <? 10)%nat = false.
Proof.
  intros H. destruct cleanId as [|c cleanId]; [simpl in H; lia|]. simpl negb. simpl orb.
  apply Nat.ltb_ge. done.
Qed.

Lemma guard_failed (cleanId : string) :
  (Js.length cleanId < 10)%nat →
  negb (Js.truthy cleanId) || (Js.length cleanId <? 10)%nat = true.
Proof. intros H. apply orb_true_iff. right. by apply Nat.ltb_lt. Qed.

(** C10. A call without a stored token, or with an identifier that is
    shorter than ten characters once trimmed (the empty one included), throws,
    and the state is the one before the call: no request was made, and the
    queue and the cache are untouched. *)
Theorem updateAppointmentStatus_guards (id : string) (s : Status) (st : State) :
  tokenMissing (localStorage st) = true ∨ (Js.length (Js.trim id) < 10)%nat →
  updateAppointmentStatus id s st
  = (Threw (if tokenMissing (localStorage st)
            then "Request failed: Your session has expired. Please sign in again."
            else "Request failed: Invalid appointment ID"), st).
Proof.
  intros H. unfold updateAppointmentStatus, updateAppointmentStatus_try.
  destruct (tokenMissing (localStorage st)); [done|].
  destruct H as [H|H]; [done|]. by rewrite guard_failed.
Qed.

Lemma readCachedAppointments_ext ls ls' :
  cachedAppointments ls' = cachedAppointments ls →
  readCachedAppointments ls' = readCachedAppointments ls.
Proof. unfold readCachedAppointments. by intros ->. Qed.

(** What the offline path leaves: the mock appointment has the new status
    and is the entry of the mock table; the operation is queued at the
    current time; the cached list, when there is one, has the mock
    appointment wherever it had the identifier; the token and
    [lastSuccessfulEndpoint] are as before. *)
Lemma offlineFallback_spec cleanId s st :
  let mock := (offlineFallback cleanId s st).1 in
  let st' := (offlineFallback cleanId s st).2 in
  status mock = s
  ∧ MOCK_DATA st' !! cleanId = Some mock
  ∧ pendingOperations st' = enqueued cleanId s (now st) (pendingOperations st)
  ∧ readCachedAppointments (localStorage st')
    = map (λ a, if bool_decide (_id a = cleanId) then mock else a)
        <$> readCachedAppointments (localStorage st)
  ∧ token (localStorage st') = token (localStorage st)
  ∧ lastSuccessfulEndpoint st' = lastSuccessfulEndpoint st.
Proof.
  unfold offlineFallback.
  destruct (addPendingOperation_frame cleanId s st) as (Hc & Ht & Hm & Hl & Hn & Ho).
  pose proof (addPendingOperation_queue cleanId s st) as Hq.
  set (st1 := addPendingOperation cleanId s st) in *.
  set (current := match MOCK_DATA st1 !! cleanId with Some known => known | None => _ end).
  simpl. rewrite (readCachedAppointments_ext (localStorage st) (localStorage st1) Hc).
  destruct (readCachedAppointments (localStorage st)) as [appointments|] eqn:Hread; simpl;
    rewrite ?(readCachedAppointments_ext (localStorage st) (localStorage st1) Hc), ?Hread;
    split_and!; try done; by rewrite lookup_insert_eq.
Qed.

Lemma allRejected_app reqs1 reqs2 history :
  allRejected (reqs1 ++ reqs2) history
  = allRejected reqs1 history && allRejected reqs2 (history ++ reqs1).
Proof.
  revert history. induction reqs1 as [|r reqs1 IH]; intros history; simpl.
  - by rewrite app_nil_r.
  - destruct (respond history r); [done|]. by rewrite IH, <- app_assoc.
Qed.

Lemma tryLastSuccessful_none cleanId hdrs s st :
  lastSuccessfulEndpoint st = None → tryLastSuccessful cleanId hdrs s st = (None, st).
Proof. unfold tryLastSuccessful. by intros ->. Qed.

(** The request that goes out first when [lastSuccessfulEndpoint] is set. *)
Lemma tryLastSuccessful_some cleanId hdrs s st last :
  lastSuccessfulEndpoint st = Some last →
  let first :=
    statusRequest {| url := Js.replaceId (url last) ("/" +:+ cleanId);
                     method := method last |} hdrs s in
  tryLastSuccessful cleanId hdrs s st
  = (match respond (requests st) first with
     | Resolved (WithData data) => Some data
     | Resolved NoBody | Rejected _ => None
     end, set_requests (requests st ++ [first]) st).
Proof.
  unfold tryLastSuccessful. intros ->. unfold axios. cbv beta iota zeta.
  by destruct (respond _ _) as [[|?]|?].
Qed.

Lemma allFailed_app reqs1 reqs2 history :
  allFailed (reqs1 ++ reqs2) history
  = allFailed reqs1 history && allFailed reqs2 (history ++ reqs1).
Proof.
  revert history. induction reqs1 as [|r reqs1 IH]; intros history; simpl.
  - by rewrite app_nil_r.
  - destruct (respond history r) as [[|?]|?]; [|done|]; by rewrite IH, <- app_assoc.
Qed.

Lemma allUnavailable_app reqs1 reqs2 history :
  allUnavailable (reqs1 ++ reqs2) history
  = allUnavailable reqs1 history && allUnavailable reqs2 (history ++ reqs1).
Proof.
  revert history. induction reqs1 as [|r reqs1 IH]; intros history; simpl.
  - by rewrite app_nil_r.
  - destruct (respond history r); [done|]. by rewrite IH, <- app_assoc, andb_assoc.
Qed.

(** The state in which the offline path starts. *)
Lemma updateAppointmentStatus_all_rejected_try id s st :
  tokenMissing (localStorage st) = false →
  (10 ≤ Js.length (Js.trim id))%nat →
  allRejected (attempts id s st) (requests st) = true →
  updateAppointmentStatus_try id s st
  = (let '(mock, st3) :=
       offlineFallback (Js.trim id) s
         (set_requests (requests st ++ attempts id s st) st) in
     (inl (Some mock), st3)).
Proof.
  intros Htok Hlen Hrej. unfold updateAppointmentStatus_try.
  rewrite Htok, guard_passed by done. unfold attempts in *.
  remember (updateEndpoints (Js.trim id)) as eps eqn:Heps. clear Heps.
  destruct (lastSuccessfulEndpoint st) as [last|] eqn:Hlast.
  - rewrite (tryLastSuccessful_some _ _ _ _ last Hlast). cbv zeta.
    rewrite allRejected_app in Hrej. apply andb_true_iff in Hrej as [Hfirst Hscan].
    cbn [allRejected] in Hfirst.
    destruct (respond (requests st) _) as [?|error]; [done|].
    match goal with |- context [tryEndpoints ?eps ?h ?s ?le ?st1] =>
      destruct (tryEndpoints_allRejected eps h s le st1 Hscan) as [err ->] end.
    match goal with |- _ = (let '(_, _) := offlineFallback _ _ ?b in _) =>
      match goal with |- (let '(_, _) := offlineFallback _ _ ?a in _) = _ =>
        replace a with b by (state_eq; by rewrite <- app_assoc) end end.
    done.
  - rewrite (tryLastSuccessful_none _ _ _ _ Hlast).
    destruct (tryEndpoints_allRejected eps (authHeader (localStorage st)) s None st Hrej)
      as [err ->].
    done.
Qed.

(** A call past the guards whose requests are all rejected returns the mock
    appointment of the offline path. *)
Lemma updateAppointmentStatus_all_rejected id s st :
  tokenMissing (localStorage st) = false →
  (10 ≤ Js.length (Js.trim id))%nat →
  allRejected (attempts id s st) (requests st) = true →
  updateAppointmentStatus id s st
  = (Returned (Some (offlineFallback (Js.trim id) s
                       (set_requests (requests st ++ attempts id s st) st)).1),
     (offlineFallback (Js.trim id) s
        (set_requests (requests st ++ attempts id s st) st)).2).
Proof.
  intros Htok Hlen Hrej. unfold updateAppointmentStatus.
  rewrite updateAppointmentStatus_all_rejected_try by done.
  by destruct (offlineFallback _ _ _).
Qed.

Lemma callSyncPendingOperations_requests st :
  ∃ more, requests (callSyncPendingOperations st) = requests st ++ more.
Proof.
  unfold callSyncPendingOperations. destruct (passRefused st).
  - exists []. by rewrite app_nil_r.
  - destruct (sortByTimestamp _) as [|op rest]; simpl.
    + exists []. by rewrite app_nil_r.
    + by eexists [_].
Qed.

Lemma addPendingOperation_requests id s st :
  ∃ more, requests (addPendingOperation id s st) = requests st ++ more.
Proof.
  unfold addPendingOperation. destruct (onLine _).
  - match goal with |- context [callSyncPendingOperations ?a] =>
      destruct (callSyncPendingOperations_requests a) as [more ->] end.
    by exists more.
  - exists []. simpl. by rewrite app_nil_r.
Qed.

Lemma offlineFallback_requests cleanId s st :
  ∃ more, requests (offlineFallback cleanId s st).2 = requests st ++ more.
Proof.
  unfold offlineFallback.
  destruct (addPendingOperation_requests cleanId s st) as [more Hm].
  set (st1 := addPendingOperation cleanId s st) in *. simpl.
  exists more. by destruct (readCachedAppointments _).
Qed.


(** C3, as the code has it. A call past the guards, made while
    [lastSuccessfulEndpoint] is set, first sends a request with the method
    of that endpoint to its URL rewritten by the identifier pattern. When
    that request resolves with a body, its data is returned and nothing
    else happens. When it fails with a network or endpoint error, the ten
    endpoints are asked in order: the first whose request resolves with a
    body, those before it having failed with such errors, is stored in
    [lastSuccessfulEndpoint], its data is returned and no later endpoint is
    asked. When every request fails with such an error, all eleven have
    been made, in order, and [lastSuccessfulEndpoint] still holds the
    endpoint it held: it is kept, not discarded. On a URL that ends in ["/"] and twenty-four hexadecimal
    digits, with no earlier such segment, the rewriting puts the trimmed
    identifier, when it has no dollar sign, in the place of the digits.
    [syncAppointmentToDatabase] does not use [lastSuccessfulEndpoint]: its
    requests are those of its own five endpoints, in order. *)
Theorem updateAppointmentStatus_last_endpoint_first
    (id : string) (s : Status) (st : State) (last : Endpoint) :
  tokenMissing (localStorage st) = false →
  (10 ≤ Js.length (Js.trim id))%nat →
  lastSuccessfulEndpoint st = Some last →
  let cleanId := Js.trim id in
  let hdrs := authHeader (localStorage st) in
  let req := λ e, statusRequest e hdrs s in
  let first := req {| url := Js.replaceId (url last) ("/" +:+ cleanId);
                      method := method last |} in
  let result := updateAppointmentStatus id s st in
  (∃ more, requests result.2 = requests st ++ first :: more)
  ∧ (∀ data, respond (requests st) first = Resolved (WithData data) →
       result = (Returned data, set_requests (requests st ++ [first]) st))
  ∧ (∀ error failed e rest data,
       respond (requests st) first = Rejected error →
       isNetworkOrEndpointError error = true →
       updateEndpoints cleanId = failed ++ e :: rest →
       allUnavailable (map req failed) (requests st ++ [first]) = true →
       respond (requests st ++ first :: map req failed) (req e) = Resolved (WithData data) →
       result = (Returned data,
                 set_lastSuccessfulEndpoint (Some e)
                   (set_requests (requests st ++ first :: map req (failed ++ [e])) st)))
  ∧ (allUnavailable (attempts id s st) (requests st) = true →
       lastSuccessfulEndpoint result.2 = Some last
       ∧ ∃ more, requests result.2 = requests st ++ attempts id s st ++ more)
  ∧ (∀ prefix old,
       url last = prefix +:+ "/" +:+ old → isObjectId old →
       noIdWithin (String.length prefix) (url last) → noDollar cleanId →
       req_url first = prefix +:+ "/" +:+ cleanId)
  ∧ (∃ k, requests (syncAppointmentToDatabase id s st).2
          = requests st ++ map req (take k (syncEndpoints cleanId))).
Proof.
  intros Htok Hlen Hlast cleanId hdrs req first result.
  assert (Hresolved : ∀ data, respond (requests st) first = Resolved (WithData data) →
            result = (Returned data, set_requests (requests st ++ [first]) st)).
  { intros data Hr. unfold result, updateAppointmentStatus, updateAppointmentStatus_try.
    rewrite Htok, guard_passed by done.
    rewrite (tryLastSuccessful_some _ _ _ _ last Hlast). cbv zeta.
    fold cleanId hdrs. fold (req {| url := Js.replaceId (url last) ("/" +:+ cleanId);
                                     method := method last |}). fold first.
    by rewrite Hr. }
  assert (Hscan : ∀ error failed e rest data,
       respond (requests st) first = Rejected error →
       isNetworkOrEndpointError error = true →
       updateEndpoints cleanId = failed ++ e :: rest →
       allUnavailable (map req failed) (requests st ++ [first]) = true →
       respond (requests st ++ first :: map req failed) (req e) = Resolved (WithData data) →
       result = (Returned data,
                 set_lastSuccessfulEndpoint (Some e)
                   (set_requests (requests st ++ first :: map req (failed ++ [e])) st))).
  { intros error failed e rest data Hr _ Heps Hrej Hres.
    unfold result, updateAppointmentStatus, updateAppointmentStatus_try.
    rewrite Htok, guard_passed by done.
    rewrite (tryLastSuccessful_some _ _ _ _ last Hlast). cbv zeta.
    fold cleanId hdrs. fold (req {| url := Js.replaceId (url last) ("/" +:+ cleanId);
                                     method := method last |}). fold first.
    rewrite Hr, Heps.
    rewrite (tryEndpoints_first_resolved failed e rest data hdrs s None
               (set_requests (requests st ++ [first]) st)).
    - f_equal. state_eq. by rewrite <- app_assoc.
    - by apply allRejected_allFailed, allUnavailable_allRejected.
    - simpl. rewrite <- app_assoc. exact Hres. }
  assert (Hkept : allUnavailable (attempts id s st) (requests st) = true →
                  lastSuccessfulEndpoint result.2 = Some last
                  ∧ ∃ more, requests result.2 = requests st ++ attempts id s st ++ more).
  { intros Hrej%allUnavailable_allRejected.
    unfold result. rewrite updateAppointmentStatus_all_rejected by done.
    cbn [snd]. split.
    - match goal with |- context [offlineFallback ?c ?x ?a] =>
        destruct (offlineFallback_spec c x a) as (_ & _ & _ & _ & _ & ->) end.
      done.
    - match goal with |- context [offlineFallback ?c ?x ?a] =>
        destruct (offlineFallback_requests c x a) as [more ->] end.
      exists more. simpl. by rewrite <- app_assoc. }
  split_and!; [|done|done|done| |].
  2: { intros prefix old Hurl Hold Hno Hd. unfold first, req, statusRequest. simpl.
       rewrite Hurl in *. by apply replaceId_trailing. }
  2: { apply tryEndpoints_prefix. }
  unfold result, updateAppointmentStatus, updateAppointmentStatus_try.
  rewrite Htok, guard_passed by done.
  rewrite (tryLastSuccessful_some _ _ _ _ last Hlast). cbv zeta.
  fold cleanId hdrs. fold (req {| url := Js.replaceId (url last) ("/" +:+ cleanId);
                                   method := method last |}). fold first.
  set (st1 := set_requests (requests st ++ [first]) st).
  assert (Hgrow : ∀ st', (∃ more, requests st' = requests st1 ++ more) →
                         ∃ more, requests st' = requests st ++ first :: more).
  { intros st' [more ->]. exists more. simpl. by rewrite <- app_assoc. }
  destruct (respond (requests st) first) as [[|data]|error].
  2: { apply Hgrow. exists []. cbn [snd]. by rewrite app_nil_r. }
  all: pose proof (tryEndpoints_networkOnly (updateEndpoints cleanId) hdrs s None st1) as Hn.
  all: destruct (tryEndpoints (updateEndpoints cleanId) hdrs s None st1) as [[data|err] st2].
  all: try (apply Hgrow; by destruct Hn as (_&_&_&_&_&_&_&Hm)).
  all: pose proof (offlineFallback_requests cleanId s st2) as Hf.
  all: destruct (offlineFallback cleanId s st2) as [mock st3]; cbn [snd] in *.
  all: apply Hgrow; destruct Hn as (_&_&_&_&_&_&_&[m1 Hm1]); destruct Hf as [m2 Hm2].
  all: exists (m1 ++ m2); rewrite Hm2, Hm1; by rewrite <- app_assoc.
Qed.

(** ** [getUserAppointments] *)


(** ** Status changes *)


(** ** Start-up *)

(** C9. The service starts with the queue that the load makes of the
    stored copy: when the stored queue is missing or is a text that does not
    parse, the load gives the empty queue and the service starts with it;
    when it is a list that parses, the load gives that list and the service
    starts with it. *)
Theorem loadPendingOperations_absent_or_corrupt
    (ls : LocalStorage) (online : bool) (time : Z) :
  (pendingAppointmentOperations ls = None
   ∨ (∃ raw, pendingAppointmentOperations ls = Some (Text raw)) →
   loadPendingOperations ls [] = []
   ∧ pendingOperations (initialState ls online time) = [])
  ∧ (∀ storedOps, pendingAppointmentOperations ls = Some (Json storedOps) →
     loadPendingOperations ls [] = storedOps
     ∧ pendingOperations (initialState ls online time) = storedOps).
Proof.
  split.
  - intros H.
    assert (loadPendingOperations ls [] = []) as Hload.
    { unfold loadPendingOperations. destruct H as [->|[raw ->]]; [done|].
      simpl. by destruct (Js.truthy raw). }
    split; [done|]. exact Hload.
  - intros storedOps H.
    assert (loadPendingOperations ls [] = storedOps) as Hload.
    { unfold loadPendingOperations. by rewrite H. }
    split; [done|]. exact Hload.
Qed.

(** ** The queue invariant over the runs *)

Lemma uniqueIds_same st st' :
  pendingOperations st' = pendingOperations st → uniqueIds st → uniqueIds st'.
Proof. unfold uniqueIds. by intros ->. Qed.

Lemma finishPass_uniqueIds toRemove st : uniqueIds st → uniqueIds (finishPass toRemove st).
Proof.
  unfold uniqueIds. rewrite finishPass_queue. intros H.
  eapply sublist_NoDup; [exact H|]. apply fmap_sublist, sublist_filter.
Qed.

Lemma nextOperation_uniqueIds sortedOperations toRemove st :
  uniqueIds st → uniqueIds (nextOperation sortedOperations toRemove st).
Proof.
  intros H. destruct sortedOperations as [|op rest]; simpl.
  - by apply finishPass_uniqueIds.
  - done.
Qed.

Lemma callSyncPendingOperations_uniqueIds st :
  uniqueIds st → uniqueIds (callSyncPendingOperations st).
Proof.
  apply uniqueIds_same. by destruct (callSyncPendingOperations_frame st) as (-> & _).
Qed.

Lemma settle_uniqueIds st : uniqueIds st → uniqueIds (settle st).
Proof.
  intros H. unfold settle. destruct (passes st) as [|p ps]; [done|].
  unfold resume, nextEndpoint.
  destruct (settlement p) as [[|?]|?]; [destruct (endpoints p)| |destruct (endpoints p)];
    first [by apply nextOperation_uniqueIds | by apply finishPass_uniqueIds | done].
Qed.

Lemma addPendingOperation_uniqueIds id s st :
  uniqueIds st → uniqueIds (addPendingOperation id s st).
Proof.
  unfold uniqueIds. rewrite addPendingOperation_queue. apply enqueued_NoDup.
Qed.

Lemma updateAppointmentStatus_uniqueIds id s st :
  uniqueIds st → uniqueIds (updateAppointmentStatus id s st).2.
Proof.
  intros H. unfold updateAppointmentStatus, updateAppointmentStatus_try.
  destruct (tokenMissing _); [done|].
  destruct (_ || _); [done|].
  pose proof (tryLastSuccessful_networkOnly (Js.trim id) (authHeader (localStorage st)) s st) as H1.
  destruct (tryLastSuccessful _ _ _ _) as [[data|] st1]; simpl in H1.
  - destruct H1 as (Hq & _). by apply (uniqueIds_same st).
  - pose proof (tryEndpoints_networkOnly (updateEndpoints (Js.trim id))
                  (authHeader (localStorage st)) s None st1) as H2.
    destruct (tryEndpoints _ _ _ _ _) as [[data|err] st2]; simpl in H2.
    + destruct H1 as (Hq1 & _), H2 as (Hq2 & _).
      apply (uniqueIds_same st); [cbn [snd]; congruence|done].
    + destruct (offlineFallback_spec (Js.trim id) s st2) as (_ & _ & Hq & _).
      destruct (offlineFallback _ _ _) as [mock st3]. cbn [snd] in *.
      unfold uniqueIds. rewrite Hq. apply enqueued_NoDup.
      destruct H1 as (Hq1 & _), H2 as (Hq2 & _). unfold uniqueIds in H. congruence.
Qed.

Lemma getUserAppointments_uniqueIds st : uniqueIds st → uniqueIds (getUserAppointments st).2.
Proof.
  apply uniqueIds_same. unfold getUserAppointments.
  destruct (respondList _ _); simpl.
  - destruct (onLine st); [|done].
    match goal with |- context [callSyncPendingOperations ?a] =>
      by destruct (callSyncPendingOperations_frame a) as (-> & _) end.
  - by destruct (readCachedAppointments _).
Qed.

(** The service keeps one queued operation per identifier: the hypothesis
    of the statement on the drain pass holds wherever a run has taken a
    queue that had it. *)
Lemma run_uniqueIds evs st : uniqueIds st → uniqueIds (run evs st).
Proof.
  revert st. induction evs as [|ev evs IH]; intros st H; [done|].
  simpl. apply IH. destruct ev; simpl.
  - by apply updateAppointmentStatus_uniqueIds.
  - by apply getUserAppointments_uniqueIds.
  - by apply addPendingOperation_uniqueIds.
  - by apply callSyncPendingOperations_uniqueIds.
  - done.
  - by apply settle_uniqueIds.
  - done.
  - done.
Qed.

End Properties.

(** * The statements at sample inputs *)

Lemma syncPendingOperations_stops_at_first_failure_witness :
  let env := answersOnly "http://localhost:5000/api/appointments/64b7f0c2a1d3e4f5a6b7c8d9"
               cancelled idA in
  let st' := syncPendingOperations (env := env) queuedBAC in
  pendingOperations st' = [opB; opC]
  ∧ length (requests st') = 6%nat
  ∧ isProcessing st' = false.
Proof.
  intros env st'.
  destruct (syncPendingOperations_stops_at_first_failure (env := env)
              queuedBAC
              (default queuedBAC
                 (allSynced (env := env) [opA] (set_isProcessing true queuedBAC)))
              [opA] opB [opC])
    as (Hq & _ & _ & _ & _ & _ & Hr & Hp).
  - reflexivity.
  - reflexivity.
  - apply (bool_decide_unpack _). vm_compute. reflexivity.
  - reflexivity.
  - vm_compute. reflexivity.
  - eexists. vm_compute. reflexivity.
  - split_and!.
    + fold st' in Hq. rewrite Hq. vm_compute. reflexivity.
    + fold st' in Hr. rewrite Hr. vm_compute. reflexivity.
    + exact Hp.
Defined.


(** C3 as stated fails: the endpoint that failed is not discarded. After a
    call in which it and the ten endpoints got no response it is still
    stored, and the next call sends its first request to it again. And
    [syncAppointmentToDatabase] does not begin with the stored endpoint. *)
Lemma updateAppointmentStatus_keeps_failed_endpoint :
  let st := resolvedOn putStatusA false in
  let st1 := (updateAppointmentStatus (env := unreachable) idB cancelled st).2 in
  let st2 := (updateAppointmentStatus (env := unreachable) idC cancelled st1).2 in
  lastSuccessfulEndpoint st = Some putStatusA
  ∧ allUnavailable (env := unreachable) (attempts (env := unreachable) idB cancelled st)
      (requests st) = true
  ∧ lastSuccessfulEndpoint st1 = Some putStatusA
  ∧ lastSuccessfulEndpoint st1 ≠ None
  ∧ req_url <$> requests st2 !! length (requests st1)
    = Some "http://localhost:5000/api/appointments/status/64b7f0c2a1d3e4f5a6b7c8db"
  ∧ req_url <$> requests (syncAppointmentToDatabase (env := unreachable) idB cancelled st).2
                  !! length (requests st)
    = Some "http://localhost:5000/api/appointments/64b7f0c2a1d3e4f5a6b7c8da".
Proof.
  intros st st1 st2.
  assert (H1 : lastSuccessfulEndpoint st1 = Some putStatusA) by (vm_compute; reflexivity).
  split_and!.
  - reflexivity.
  - vm_compute. reflexivity.
  - exact H1.
  - rewrite H1. discriminate.
  - vm_compute. reflexivity.
  - vm_compute. reflexivity.
Qed.

Lemma updateAppointmentStatus_last_endpoint_first_witness :
  let env := answersOnly
               "http://localhost:5000/api/appointments/status/64b7f0c2a1d3e4f5a6b7c8da"
               cancelled idB in
  let result := updateAppointmentStatus (env := env) idB cancelled (resolvedOn patchA false) in
  result.1 = Returned (Some (appt idB cancelled))
  ∧ lastSuccessfulEndpoint result.2
    = Some {| url := "http://localhost:5000/api/appointments/status/64b7f0c2a1d3e4f5a6b7c8da";
              method := "PUT" |}
  ∧ req_url <$> requests result.2
    = [ "http://localhost:5000/api/appointments/64b7f0c2a1d3e4f5a6b7c8da";
        "http://localhost:5000/api/appointments/64b7f0c2a1d3e4f5a6b7c8da";
        "http://localhost:5000/api/appointments/status/64b7f0c2a1d3e4f5a6b7c8da" ].
Proof.
  intros env result.
  destruct (updateAppointmentStatus_last_endpoint_first (env := env)
              idB cancelled (resolvedOn patchA false) patchA)
    as (_ & _ & Hscan & _).
  - reflexivity.
  - vm_compute. lia.
  - reflexivity.
  - specialize (Hscan RequestError
                  (take 1 (updateEndpoints (env := env) idB))
                  {| url := "http://localhost:5000/api/appointments/status/64b7f0c2a1d3e4f5a6b7c8da";
                     method := "PUT" |}
                  (drop 2 (updateEndpoints (env := env) idB))
                  (Some (appt idB cancelled))
                  eq_refl eq_refl eq_refl eq_refl eq_refl).
    fold result in Hscan. rewrite Hscan. split_and!; reflexivity.
Defined.

Lemma addPendingOperation_last_intent_wins_witness :
  let st' := enqueueAll (env := unreachable)
               [(1, idA, cancelled); (2, idB, confirmed); (3, idA, pending)]
               (cachedA confirmed false) in
  NoDup (map op_id (pendingOperations st'))
  ∧ {| op_id := idA; op_status := pending; op_timestamp := 3 |} ∈ pendingOperations st'
  ∧ {| op_id := idB; op_status := confirmed; op_timestamp := 2 |} ∈ pendingOperations st'.
Proof.
  intros st'.
  destruct (addPendingOperation_last_intent_wins (env := unreachable)
              [(1, idA, cancelled); (2, idB, confirmed); (3, idA, pending)]
              (cachedA confirmed false))
    as [Hnd Hlast].
  - vm_compute. constructor.
  - split_and!.
    + exact Hnd.
    + apply (Hlast idA 3 pending). vm_compute. reflexivity.
    + apply (Hlast idB 2 confirmed). vm_compute. reflexivity.
Defined.


(** C6 fails on the code. Every request of the call is answered 401. The
    call returns the mock appointment, the operation is queued and the
    token is still stored: the errors were caught where the requests were
    made, and the [catch] block, which would have removed the token and
    thrown, was not entered. *)
Theorem updateAppointmentStatus_unauthorized_is_queued :
  let st := cachedA confirmed false in
  let result := updateAppointmentStatus (env := unauthorized) idA cancelled st in
  allRejected (env := unauthorized) (attempts (env := unauthorized) idA cancelled st)
    (requests st) = true
  ∧ result.1 = Returned (Some (withStatus (appt idA confirmed) cancelled 100))
  ∧ pendingOperations result.2
    = [{| op_id := idA; op_status := cancelled; op_timestamp := 100 |}]
  ∧ token (localStorage result.2) = Some "jwt"
  ∧ length (requests result.2) = 10%nat
  ∧ (let '(message, st') :=
       updateAppointmentStatus_catch
         (AxiosException (ResponseError 401 (Some "Not authorized") None)) st in
     message = "Your session has expired. Please sign in again."
     ∧ token (localStorage st') = None).
Proof. vm_compute. split_and!; reflexivity. Qed.

Lemma syncPendingOperations_one_pass_at_a_time_witness :
  let st := run (env := unreachable) [Enqueue idA cancelled; Enqueue idB cancelled]
              (initialState signedIn true 100) in
  isProcessing st = true
  ∧ length (passes st) = 1%nat
  ∧ callSyncPendingOperations (env := unreachable) st = st
  ∧ syncPendingOperations (env := unreachable) st = st.
Proof.
  intros st.
  destruct (syncPendingOperations_one_pass_at_a_time (env := unreachable) signedIn true 100
              [Enqueue idA cancelled; Enqueue idB cancelled])
    as (_ & _ & H).
  fold st in H.
  assert (Hi : isProcessing st = true) by (vm_compute; reflexivity).
  destruct (H Hi) as [H1 H2].
  split_and!; [exact Hi|vm_compute; reflexivity|exact H1|exact H2].
Defined.



Lemma loadPendingOperations_absent_or_corrupt_witness :
  let corrupt := {| token := None; pendingAppointmentOperations := Some (Text "[{id:");
                    cachedAppointments := None |} in
  let stored := {| token := None; pendingAppointmentOperations := Some (Json [opB; opA]);
                   cachedAppointments := None |} in
  (loadPendingOperations corrupt [] = []
   ∧ pendingOperations (initialState corrupt true 0) = [])
  ∧ (loadPendingOperations stored [] = [opB; opA]
     ∧ pendingOperations (initialState stored true 0) = [opB; opA]).
Proof.
  intros corrupt stored. split.
  - destruct (loadPendingOperations_absent_or_corrupt corrupt true 0) as [Hempty _].
    apply Hempty. right. exists "[{id:". reflexivity.
  - destruct (loadPendingOperations_absent_or_corrupt stored true 0) as [_ Hstored].
    apply Hstored. reflexivity.
Defined.

Lemma updateAppointmentStatus_guards_witness :
  updateAppointmentStatus (env := unreachable) "  a1 " cancelled (cachedA confirmed true)
  = (Threw "Request failed: Invalid appointment ID", cachedA confirmed true).
Proof.
  apply (updateAppointmentStatus_guards (env := unreachable) "  a1 " cancelled
           (cachedA confirmed true)).
  right. vm_compute. lia.
Defined.

(** * Further properties of the service *)

Section Further.
Context {env : Environment}.

(** ** The order of a pass *)

(** X1. The operations a pass visits are those of the queue, each as often
    as it is queued, listed by ascending time. *)
Theorem sortByTimestamp_reorders_oldest_first (queue : list PendingOperation) :
  sortByTimestamp queue ≡ₚ queue ∧ oldestFirst (sortByTimestamp queue).
Proof. split; [apply sortByTimestamp_perm|apply sortByTimestamp_oldestFirst]. Qed.

(** X2. A queue that is already in the order of its times, equal times
    included, is visited in the order of the queue. *)
Theorem sortByTimestamp_keeps_time_order (queue : list PendingOperation) :
  oldestFirst queue → sortByTimestamp queue = queue.
Proof.
  induction queue as [|x l IH]; intros H; [done|].
  apply oldestFirst_cons in H as [Hx Hl]. simpl. rewrite IH by done.
  destruct l as [|y l']; [done|]. simpl.
  destruct (Z.leb_spec (op_timestamp x) (op_timestamp y)) as [_|Hgt]; [done|].
  assert (op_timestamp x <= op_timestamp y) by (apply Hx; by left). lia.
Qed.

(** ** What a pass leaves *)

Lemma finishPass_untouched toRemove st :
  let st' := finishPass toRemove st in
  cachedAppointments (localStorage st') = cachedAppointments (localStorage st)
  ∧ token (localStorage st') = token (localStorage st)
  ∧ MOCK_DATA st' = MOCK_DATA st
  ∧ lastSuccessfulEndpoint st' = lastSuccessfulEndpoint st
  ∧ passes st' = passes st ∧ onLine st' = onLine st ∧ now st' = now st
  ∧ requests st' = requests st.
Proof. unfold finishPass. by destruct (0 <? length toRemove)%nat. Qed.

Lemma syncPendingOperations_untouched st :
  let st' := syncPendingOperations st in
  cachedAppointments (localStorage st') = cachedAppointments (localStorage st)
  ∧ token (localStorage st') = token (localStorage st)
  ∧ MOCK_DATA st' = MOCK_DATA st
  ∧ passes st' = passes st ∧ onLine st' = onLine st ∧ now st' = now st.
Proof.
  unfold syncPendingOperations. destruct (passRefused st); [done|].
  pose proof (syncOperations_networkOnly
                (sortByTimestamp (pendingOperations (set_isProcessing true st))) []
                (set_isProcessing true st)) as Hn.
  destruct (syncOperations _ _ _) as [toRemove st2].
  destruct Hn as (_ & _ & Hm & Hl & Ho & Ht & Hp & _). simpl in Hm, Hl, Ho, Ht, Hp.
  cbv beta iota zeta.
  destruct (finishPass_untouched toRemove st2) as (-> & -> & -> & _ & -> & -> & -> & _).
  by rewrite Hl, Hm, Ho, Ht, Hp.
Qed.

(** X3. A pass, however its requests are answered, does not write the
    cached appointments, the token or the mock table, and the queue it
    leaves is the old queue with some operations taken out, the others in
    their order. *)
Theorem syncPendingOperations_leaves_cache (st : State) :
  let st' := syncPendingOperations st in
  cachedAppointments (localStorage st') = cachedAppointments (localStorage st)
  ∧ token (localStorage st') = token (localStorage st)
  ∧ MOCK_DATA st' = MOCK_DATA st
  ∧ sublist (pendingOperations st') (pendingOperations st).
Proof.
  intros st'.
  destruct (syncPendingOperations_untouched st) as (Hc & Ht & Hm & _).
  split_and!; [done|done|done|].
  unfold st', syncPendingOperations. destruct (passRefused st); [done|].
  pose proof (syncOperations_networkOnly
                (sortByTimestamp (pendingOperations (set_isProcessing true st))) []
                (set_isProcessing true st)) as (Hq & _).
  destruct (syncOperations _ _ _) as [toRemove st2]. simpl in Hq.
  rewrite finishPass_queue, Hq. apply sublist_filter.
Qed.

Lemma tryEndpoints_requests_le eps hdrs s lastErr st :
  (length (requests (tryEndpoints eps hdrs s lastErr st).2)
   ≤ length (requests st) + length eps)%nat.
Proof.
  destruct (tryEndpoints_prefix eps hdrs s lastErr st) as [k ->].
  rewrite length_app, length_map, length_take. lia.
Qed.

Lemma syncOperations_requests_le ops toRemove st :
  (length (requests (syncOperations ops toRemove st).2)
   ≤ length (requests st) + 5 * length ops)%nat.
Proof.
  revert toRemove st. induction ops as [|op ops IH]; intros toRemove st; simpl; [lia|].
  pose proof (tryEndpoints_requests_le (syncEndpoints (Js.trim (op_id op)))
                (authHeader (localStorage st)) (op_status op) None st) as Hle.
  unfold syncAppointmentToDatabase.
  destruct (tryEndpoints _ _ _ _ _) as [[?|?] st1]; simpl in *.
  - specialize (IH (toRemove ++ [op_id op]) st1). lia.
  - lia.
Qed.

(** X4. A pass that starts with the flag clear ends with the flag clear,
    and makes at most five requests for each queued operation. *)
Theorem syncPendingOperations_is_bounded (st : State) :
  isProcessing st = false →
  let st' := syncPendingOperations st in
  isProcessing st' = false
  ∧ (length (requests st')
     ≤ length (requests st) + 5 * length (pendingOperations st))%nat.
Proof.
  intros Hidle st'. unfold st', syncPendingOperations.
  destruct (passRefused st); [split; [done|lia]|].
  pose proof (syncOperations_requests_le
                (sortByTimestamp (pendingOperations (set_isProcessing true st))) []
                (set_isProcessing true st)) as Hle.
  destruct (syncOperations _ _ _) as [toRemove st2]. simpl in Hle.
  rewrite sortByTimestamp_perm in Hle.
  destruct (finishPass_untouched toRemove st2) as (_&_&_&_&_&_&_& ->).
  split; [|done]. unfold finishPass. by destruct (0 <? length toRemove)%nat.
Qed.


(** X6. A pass that is called and then goes on as its requests settle, five
    settlements for each queued operation being enough, ends in the very
    state of the awaited pass, with no pass left suspended. *)
Theorem syncPendingOperations_request_by_request (st : State) (m : nat) :
  passes st = [] →
  (5 * length (pendingOperations st) ≤ m)%nat →
  settles m (callSyncPendingOperations st) = syncPendingOperations st
  ∧ passes (settles m (callSyncPendingOperations st)) = [].
Proof.
  intros Hp Hm. rewrite syncPendingOperations_settles by done. split; [done|].
  destruct (syncPendingOperations_untouched st) as (_ & _ & _ & -> & _). done.
Qed.

(** ** Invariants of the runs *)

(** X7. Whatever happens to the service (calls, triggers, settlements,
    connectivity and clock changes), a queue with one operation per
    identifier stays one. *)
Theorem service_keeps_one_operation_per_identifier (evs : list Event) (st : State) :
  uniqueIds st → uniqueIds (run evs st).
Proof. apply run_uniqueIds. Qed.



Lemma savePendingOperations_agrees st : storedQueueAgrees (savePendingOperations st).
Proof. done. Qed.











Lemma offlineFallback_mockKeyed cleanId s st :
  mockKeyed st →
  mockKeyed (offlineFallback cleanId s st).2 ∧ _id (offlineFallback cleanId s st).1 = cleanId.
Proof.
  intros H. unfold offlineFallback.
  destruct (addPendingOperation_frame cleanId s st) as (_ & _ & Hm & _).
  set (st1 := addPendingOperation cleanId s st) in *.
  set (current := match MOCK_DATA st1 !! cleanId with Some known => known | None => _ end).
  assert (Hcur : _id current = cleanId).
  { unfold current. destruct (MOCK_DATA st1 !! cleanId) as [known|] eqn:Hk.
    - rewrite Hm in Hk. by apply H.
    - destruct (readCachedAppointments _) as [l|]; [|done].
      destruct (List.find _ l) as [found|] eqn:Hf; [|done].
      apply find_some in Hf as [_ Hf]. by apply bool_decide_eq_true in Hf. }
  simpl. split; [|done].
  assert (Hins : mockKeyed (set_MOCK_DATA
            (<[cleanId := withStatus current s (now st1)]> (MOCK_DATA st1)) st1)).
  { intros key a. simpl. rewrite lookup_insert. case_decide as Hk.
    - intros [= <-]. simpl. congruence.
    - rewrite Hm. apply H. }
  by destruct (readCachedAppointments _).
Qed.

Lemma mockKeyed_same st st' : MOCK_DATA st' = MOCK_DATA st → mockKeyed st → mockKeyed st'.
Proof. unfold mockKeyed. by intros ->. Qed.

Lemma updateAppointmentStatus_mockKeyed id s st :
  mockKeyed st → mockKeyed (updateAppointmentStatus id s st).2.
Proof.
  intros H. unfold updateAppointmentStatus, updateAppointmentStatus_try.
  destruct (tokenMissing _); [done|].
  destruct (_ || _); [done|].
  pose proof (tryLastSuccessful_networkOnly (Js.trim id) (authHeader (localStorage st)) s st) as H1.
  destruct (tryLastSuccessful _ _ _ _) as [[data|] st1]; simpl in H1.
  - destruct H1 as (_ & _ & Hm & _). by apply (mockKeyed_same st).
  - pose proof (tryEndpoints_networkOnly (updateEndpoints (Js.trim id))
                  (authHeader (localStorage st)) s None st1) as H2.
    destruct H1 as (_ & _ & Hm1 & _).
    destruct (tryEndpoints _ _ _ _ _) as [[data|err] st2]; simpl in H2;
      destruct H2 as (_ & _ & Hm2 & _).
    + apply (mockKeyed_same st); [cbn [snd]; congruence|done].
    + destruct (offlineFallback_mockKeyed (Js.trim id) s st2) as [H3 _].
      { apply (mockKeyed_same st); [congruence|done]. }
      by destruct (offlineFallback _ _ _).
Qed.

Lemma step_mockKeyed ev st : mockKeyed st → mockKeyed (step ev st).
Proof.
  intros H. destruct ev; simpl.
  - by apply updateAppointmentStatus_mockKeyed.
  - apply (mockKeyed_same st); [|done]. unfold getUserAppointments.
    destruct (respondList _ _); simpl.
    + destruct (onLine st); [|done].
      match goal with |- context [callSyncPendingOperations ?a] =>
        by destruct (callSyncPendingOperations_frame a) as (_ & _ & -> & _) end.
    + by destruct (readCachedAppointments _).
  - apply (mockKeyed_same st); [|done].
    by destruct (addPendingOperation_frame id s st) as (_ & _ & -> & _).
  - apply (mockKeyed_same st); [|done].
    by destruct (callSyncPendingOperations_frame st) as (_ & _ & -> & _).
  - done.
  - apply (mockKeyed_same st); [|done]. unfold settle.
    destruct (passes st) as [|p ps]; [done|]. unfold resume, nextEndpoint.
    assert (Hnext : ∀ ops toRemove st0, MOCK_DATA (nextOperation ops toRemove st0) = MOCK_DATA st0).
    { intros ops toRemove st0. destruct ops as [|op rest]; [|done].
      unfold nextOperation.
      by destruct (finishPass_untouched toRemove st0) as (_ & _ & -> & _). }
    assert (Hfinish : ∀ toRemove st0, MOCK_DATA (finishPass toRemove st0) = MOCK_DATA st0).
    { intros toRemove st0. by destruct (finishPass_untouched toRemove st0) as (_ & _ & -> & _). }
    destruct (settlement p) as [[|?]|?]; [destruct (endpoints p)| |destruct (endpoints p)];
      rewrite ?Hnext, ?Hfinish; done.
  - done.
  - done.
Qed.

Lemma run_mockKeyed evs st : mockKeyed st → mockKeyed (run evs st).
Proof.
  revert st. induction evs as [|ev evs IH]; intros st H; [done|].
  simpl. by apply IH, step_mockKeyed.
Qed.

(** X9. With identifiers that are not names of inherited members: in every
    state the service reaches from its start, each entry of the mock table
    carries the identifier it is filed under; so the mock appointment that
    a call returns on the offline path carries the trimmed identifier of the
    call, with the status asked for. *)
Theorem offline_mock_has_the_identifier
    (ls : LocalStorage) (online : bool) (time : Z) (evs : list Event)
    (id : string) (s : Status) :
  let st := run evs (initialState ls online time) in
  Forall updatesOwnKey evs →
  Js.trim id ∉ inheritedMembers →
  tokenMissing (localStorage st) = false →
  (10 ≤ Js.length (Js.trim id))%nat →
  allRejected (attempts id s st) (requests st) = true →
  mockKeyed st
  ∧ ∃ mock st',
      updateAppointmentStatus id s st = (Returned (Some mock), st')
      ∧ _id mock = Js.trim id ∧ status mock = s
      ∧ MOCK_DATA st' !! Js.trim id = Some mock.
Proof.
  intros st _ _ Htok Hlen Hrej.
  assert (Hk : mockKeyed st).
  { apply run_mockKeyed. intros key a. simpl. by rewrite lookup_empty. }
  split; [done|].
  rewrite updateAppointmentStatus_all_rejected by done.
  set (st2 := set_requests (requests st ++ attempts id s st) st).
  destruct (offlineFallback_mockKeyed (Js.trim id) s st2) as [_ Hid]; [done|].
  destruct (offlineFallback_spec (Js.trim id) s st2) as (Hs & Hm & _).
  eexists _, _. split; [reflexivity|]. done.
Qed.

(** ** More on [updateAppointmentStatus] *)

(** How the endpoint loop can end. *)
Lemma tryEndpoints_outcome eps hdrs s lastErr st :
  let reqs := map (λ e, statusRequest e hdrs s) eps in
  match tryEndpoints eps hdrs s lastErr st with
  | (inl _, st') =>
      allFailed reqs (requests st) = false
      ∧ ∃ e, e ∈ eps ∧ lastSuccessfulEndpoint st' = Some e
  | (inr _, st') =>
      allFailed reqs (requests st) = true
      ∧ requests st' = requests st ++ reqs
      ∧ (if allRejected reqs (requests st)
         then lastSuccessfulEndpoint st' = lastSuccessfulEndpoint st
         else ∃ e, e ∈ eps ∧ lastSuccessfulEndpoint st' = Some e)
  end.
Proof.
  revert lastErr st. induction eps as [|e eps IH]; intros lastErr st; simpl.
  - by rewrite app_nil_r.
  - destruct (respond (requests st) (statusRequest e hdrs s)) as [[|data]|error]; simpl.
    + specialize (IH (Some noBodyError)
                    (set_lastSuccessfulEndpoint (Some e)
                       (set_requests (requests st ++ [statusRequest e hdrs s]) st))).
      destruct (tryEndpoints _ _ _ _ _) as [[data|err] st']; simpl in IH.
      * destruct IH as (Hr & e' & He' & Hl). split; [done|]. exists e'. split; [by right|done].
      * destruct IH as (Hr & Hq & Hl). split_and!; [done|by rewrite Hq, <- app_assoc|].
        destruct (allRejected _ _).
        -- exists e. split; [by left|done].
        -- destruct Hl as (e' & He' & Hl). exists e'. split; [by right|done].
    + split; [done|]. exists e. split; [by left|done].
    + specialize (IH (Some (AxiosException error))
                    (set_requests (requests st ++ [statusRequest e hdrs s]) st)).
      destruct (tryEndpoints _ _ _ _ _) as [[data|err] st']; simpl in IH.
      * destruct IH as (Hr & e' & He' & Hl). split; [done|]. exists e'. split; [by right|done].
      * destruct IH as (Hr & Hq & Hl). split_and!; [done|by rewrite Hq, <- app_assoc|].
        destruct (allRejected _ _); [done|].
        destruct Hl as (e' & He' & Hl). exists e'. split; [by right|done].
Qed.

(** The body of a call that is past its guards. *)
Lemma updateAppointmentStatus_past_guards id s st :
  tokenMissing (localStorage st) = false →
  (10 ≤ Js.length (Js.trim id))%nat →
  updateAppointmentStatus id s st
  = match tryLastSuccessful (Js.trim id) (authHeader (localStorage st)) s st with
    | (Some data, st1) => (Returned data, st1)
    | (None, st1) =>
        match tryEndpoints (updateEndpoints (Js.trim id)) (authHeader (localStorage st)) s None st1
        with
        | (inl data, st2) => (Returned data, st2)
        | (inr _, st2) =>
            (Returned (Some (offlineFallback (Js.trim id) s st2).1),
             (offlineFallback (Js.trim id) s st2).2)
        end
    end.
Proof.
  intros Htok Hlen. unfold updateAppointmentStatus, updateAppointmentStatus_try.
  rewrite Htok, guard_passed by done.
  destruct (tryLastSuccessful _ _ _ _) as [[data|] st1]; [done|].
  destruct (tryEndpoints _ _ _ _ _) as [[data|err] st2]; [done|].
  by destruct (offlineFallback _ _ _).
Qed.

(** X10. A call throws exactly when it has no token or its trimmed
    identifier is shorter than ten characters: past these guards it
    returns, whatever the backend answers. *)
Theorem updateAppointmentStatus_throws_only_at_guards
    (id : string) (s : Status) (st : State) :
  (∃ message, (updateAppointmentStatus id s st).1 = Threw message)
  ↔ tokenMissing (localStorage st) = true ∨ (Js.length (Js.trim id) < 10)%nat.
Proof.
  split.
  - intros [message Hthrow].
    destruct (tokenMissing (localStorage st)) eqn:Htok; [by left|].
    destruct (decide (Js.length (Js.trim id) < 10)%nat) as [|Hlen]; [by right|].
    exfalso. rewrite updateAppointmentStatus_past_guards in Hthrow by (done || lia).
    destruct (tryLastSuccessful _ _ _ _) as [[data|] st1]; [done|].
    by destruct (tryEndpoints _ _ _ _ _) as [[data|err] st2].
  - intros H. unfold updateAppointmentStatus, updateAppointmentStatus_try.
    destruct (tokenMissing (localStorage st)); [by eexists|].
    destruct H as [H|H]; [done|]. rewrite guard_failed by done. by eexists.
Qed.

Lemma tryLastSuccessful_last cleanId hdrs s st :
  lastSuccessfulEndpoint (tryLastSuccessful cleanId hdrs s st).2 = lastSuccessfulEndpoint st.
Proof.
  unfold tryLastSuccessful. destruct (lastSuccessfulEndpoint st) as [last|] eqn:Hl; [|done].
  simpl. by destruct (respond _ _) as [[|?]|?].
Qed.

(** X11. No call removes or changes the stored token, and none leaves
    [lastSuccessfulEndpoint] empty that found it set. *)
Theorem updateAppointmentStatus_keeps_token (id : string) (s : Status) (st : State) :
  let st' := (updateAppointmentStatus id s st).2 in
  token (localStorage st') = token (localStorage st)
  ∧ (is_Some (lastSuccessfulEndpoint st) → is_Some (lastSuccessfulEndpoint st')).
Proof.
  intros st'. unfold st'.
  destruct (tokenMissing (localStorage st)) eqn:Htok.
  { unfold updateAppointmentStatus, updateAppointmentStatus_try. by rewrite Htok. }
  destruct (decide (Js.length (Js.trim id) < 10)%nat) as [Hshort|Hlen].
  { unfold updateAppointmentStatus, updateAppointmentStatus_try.
    by rewrite Htok, guard_failed. }
  rewrite updateAppointmentStatus_past_guards by (done || lia).
  pose proof (tryLastSuccessful_networkOnly (Js.trim id) (authHeader (localStorage st)) s st)
    as (_ & _ & _ & Hl1 & _).
  pose proof (tryLastSuccessful_last (Js.trim id) (authHeader (localStorage st)) s st) as He1.
  destruct (tryLastSuccessful _ _ _ _) as [[data|] st1]; cbn [snd] in *.
  - by rewrite Hl1, He1.
  - pose proof (tryEndpoints_networkOnly (updateEndpoints (Js.trim id))
                  (authHeader (localStorage st)) s None st1) as (_ & _ & _ & Hl2 & _).
    pose proof (tryEndpoints_outcome (updateEndpoints (Js.trim id))
                  (authHeader (localStorage st)) s None st1) as Hout.
    destruct (tryEndpoints _ _ _ _ _) as [[data|err] st2]; cbn [snd] in *.
    + destruct Hout as (_ & e & _ & He). rewrite Hl2, Hl1, He. split; [done|]. by eexists.
    + destruct Hout as (_ & _ & He).
      destruct (offlineFallback_spec (Js.trim id) s st2) as (_ & _ & _ & _ & Ht & Hlast).
      rewrite Ht, Hlast, Hl2, Hl1. split; [done|].
      destruct (allRejected _ _); [by rewrite He, He1|].
      destruct He as (e & _ & ->). by eexists.
Qed.

(** X12. When a request of a call past the guards resolves with a body,
    those before it having given no result, the call returns the data of
    that request, asks nothing after it, and writes nothing but the record
    of its requests and [lastSuccessfulEndpoint]: the queue, the cached
    appointments, the mock table and the flag are as before. *)
Theorem updateAppointmentStatus_success_writes_nothing
    (id : string) (s : Status) (st : State)
    (failed : list Request) (r : Request) (rest : list Request)
    (data : option Appointment) :
  tokenMissing (localStorage st) = false →
  (10 ≤ Js.length (Js.trim id))%nat →
  attempts id s st = failed ++ r :: rest →
  allFailed failed (requests st) = true →
  respond (requests st ++ failed) r = Resolved (WithData data) →
  ∃ st',
    updateAppointmentStatus id s st = (Returned data, st')
    ∧ networkOnly st st'
    ∧ requests st' = requests st ++ failed ++ [r].
Proof.
  intros Htok Hlen Hsplit Hfailed Hres. rewrite updateAppointmentStatus_past_guards by done.
  unfold attempts in Hsplit.
  set (hdrs := authHeader (localStorage st)) in *.
  assert (Hscan : ∀ st1 failed',
            map (λ e, statusRequest e hdrs s) (updateEndpoints (Js.trim id))
            = failed' ++ r :: rest →
            allFailed failed' (requests st1) = true →
            respond (requests st1 ++ failed') r = Resolved (WithData data) →
            ∃ st', tryEndpoints (updateEndpoints (Js.trim id)) hdrs s None st1 = (inl data, st')
                   ∧ networkOnly st1 st'
                   ∧ requests st' = requests st1 ++ failed' ++ [r]).
  { intros st1 failed' Heps Hf Hr.
    apply fmap_app_inv in Heps as (failedE & restE & -> & Hrest & Heps).
    symmetry in Hrest. apply fmap_cons_inv in Hrest as (e & restE' & -> & -> & ->).
    pose proof (tryEndpoints_networkOnly (updateEndpoints (Js.trim id)) hdrs s None st1) as Hn.
    rewrite Heps in *.
    rewrite (tryEndpoints_first_resolved failedE e restE' data hdrs s None st1 Hf Hr) in *.
    eexists. split; [reflexivity|]. split; [exact Hn|].
    simpl. by rewrite fmap_app. }
  destruct (lastSuccessfulEndpoint st) as [last|] eqn:Hlast.
  - rewrite (tryLastSuccessful_some _ _ _ _ last Hlast). cbv zeta.
    fold hdrs. set (first := statusRequest _ hdrs s) in *.
    destruct failed as [|f failed'].
    + injection Hsplit as <- _. rewrite app_nil_r in Hres. rewrite Hres.
      eexists. split; [reflexivity|]. split; [|done].
      repeat split. by exists [first].
    + injection Hsplit as <- Heps. cbn [allFailed] in Hfailed.
      assert (Hnone : match respond (requests st) first with
                      | Resolved (WithData data0) => Some data0
                      | _ => None
                      end = None
                      ∧ allFailed failed' (requests st ++ [first]) = true).
      { by destruct (respond (requests st) first) as [[|?]|?]. }
      destruct Hnone as [-> Hfailed'].
      destruct (Hscan (set_requests (requests st ++ [first]) st) failed') as (st' & -> & Hn & Hq).
      * done.
      * done.
      * simpl. rewrite <- app_assoc. exact Hres.
      * exists st'. split; [done|]. split.
        -- etrans; [|exact Hn]. repeat split. by exists [first].
        -- rewrite Hq. simpl. by rewrite <- app_assoc.
  - rewrite (tryLastSuccessful_none _ _ _ _ Hlast). cbn [app] in Hsplit.
    destruct (Hscan st failed Hsplit Hfailed Hres) as (st' & -> & Hn & Hq).
    by exists st'.
Qed.

(** The call when none of its requests gives a result: the offline path
    starts once all of them have been made. *)
Lemma updateAppointmentStatus_no_result id s st :
  tokenMissing (localStorage st) = false →
  (10 ≤ Js.length (Js.trim id))%nat →
  allFailed (attempts id s st) (requests st) = true →
  ∃ st2,
    networkOnly st st2
    ∧ requests st2 = requests st ++ attempts id s st
    ∧ updateAppointmentStatus id s st
      = (Returned (Some (offlineFallback (Js.trim id) s st2).1),
         (offlineFallback (Js.trim id) s st2).2).
Proof.
  intros Htok Hlen Hfail. rewrite updateAppointmentStatus_past_guards by done.
  unfold attempts in *.
  set (hdrs := authHeader (localStorage st)) in *.
  remember (updateEndpoints (Js.trim id)) as eps eqn:Heps. clear Heps.
  destruct (lastSuccessfulEndpoint st) as [last|] eqn:Hlast.
  - rewrite (tryLastSuccessful_some _ _ _ _ last Hlast). cbv zeta.
    fold hdrs. set (first := statusRequest _ hdrs s) in *.
    cbn [app allFailed] in Hfail.
    assert (Hnone : match respond (requests st) first with
                    | Resolved (WithData data0) => Some data0
                    | _ => None
                    end = None
                    ∧ allFailed (map (λ e, statusRequest e hdrs s) eps)
                        (requests st ++ [first]) = true).
    { by destruct (respond (requests st) first) as [[|?]|?]. }
    destruct Hnone as [-> Hscan].
    pose proof (tryEndpoints_networkOnly eps hdrs s None
                  (set_requests (requests st ++ [first]) st)) as Hn.
    destruct (tryEndpoints_allFailed eps hdrs s None
                (set_requests (requests st ++ [first]) st) Hscan)
      as (err & st2 & Heq & Hreq).
    rewrite Heq in *. exists st2. split_and!.
    + etrans; [|exact Hn]. repeat split. by exists [first].
    + rewrite Hreq. simpl. by rewrite <- app_assoc.
    + done.
  - rewrite (tryLastSuccessful_none _ _ _ _ Hlast). cbn [app] in Hfail.
    pose proof (tryEndpoints_networkOnly eps hdrs s None st) as Hn.
    destruct (tryEndpoints_allFailed eps hdrs s None st Hfail) as (err & st2 & Heq & Hreq).
    rewrite Heq in *. by exists st2.
Qed.

(** X24. A call past the guards queues the operation exactly when none of
    its requests gives a result, each being rejected or resolving without a
    body: it then returns a mock appointment with the status asked for, and
    the queue is the one before with the operation put in; when a request
    gives a result, the queue, the storage and the mock table are as
    before. *)
Theorem updateAppointmentStatus_queues_exactly_without_result
    (id : string) (s : Status) (st : State) :
  tokenMissing (localStorage st) = false →
  (10 ≤ Js.length (Js.trim id))%nat →
  let result := updateAppointmentStatus id s st in
  if allFailed (attempts id s st) (requests st)
  then (∃ mock, result.1 = Returned (Some mock) ∧ status mock = s)
       ∧ pendingOperations result.2
         = enqueued (Js.trim id) s (now st) (pendingOperations st)
  else pendingOperations result.2 = pendingOperations st
       ∧ localStorage result.2 = localStorage st
       ∧ MOCK_DATA result.2 = MOCK_DATA st.
Proof.
  intros Htok Hlen result.
  destruct (allFailed (attempts id s st) (requests st)) eqn:Hfail.
  - destruct (updateAppointmentStatus_no_result id s st Htok Hlen Hfail)
      as (st2 & (Hq & _ & _ & _ & _ & Hnow & _) & _ & Heq).
    unfold result. rewrite Heq. cbn [fst snd].
    destruct (offlineFallback_spec (Js.trim id) s st2) as (Hs & _ & Hq' & _).
    split; [by eexists|]. by rewrite Hq', Hnow, Hq.
  - unfold result. rewrite updateAppointmentStatus_past_guards by done.
    unfold attempts in Hfail.
    pose proof (tryLastSuccessful_networkOnly (Js.trim id) (authHeader (localStorage st)) s st)
      as Hn1.
    assert (Hscan : ∀ st1, networkOnly st st1 →
              allFailed (map (λ e, statusRequest e (authHeader (localStorage st)) s)
                           (updateEndpoints (Js.trim id))) (requests st1) = false →
              let result :=
                match tryEndpoints (updateEndpoints (Js.trim id))
                        (authHeader (localStorage st)) s None st1 with
                | (inl data, st2) => (Returned data, st2)
                | (inr _, st2) =>
                    (Returned (Some (offlineFallback (Js.trim id) s st2).1),
                     (offlineFallback (Js.trim id) s st2).2)
                end in
              pendingOperations result.2 = pendingOperations st
              ∧ localStorage result.2 = localStorage st
              ∧ MOCK_DATA result.2 = MOCK_DATA st).
    { intros st1 Hst1 Hf.
      pose proof (tryEndpoints_outcome (updateEndpoints (Js.trim id))
                    (authHeader (localStorage st)) s None st1) as Hout.
      pose proof (tryEndpoints_networkOnly (updateEndpoints (Js.trim id))
                    (authHeader (localStorage st)) s None st1) as Hn2.
      cbv zeta in Hout.
      destruct (tryEndpoints _ _ _ _ _) as [[data|err] st2]; cbn [snd] in *.
      - assert (networkOnly st st2) as (? & _ & ? & ? & _) by (by etrans). done.
      - destruct Hout as (Htrue & _). congruence. }
    destruct (lastSuccessfulEndpoint st) as [last|] eqn:Hlast.
    + rewrite (tryLastSuccessful_some _ _ _ _ last Hlast) in *. cbv zeta in *.
      cbn [app allFailed] in Hfail.
      destruct (respond (requests st) _) as [[|data]|error] eqn:Hr.
      * by apply Hscan.
      * cbn [snd] in *. by destruct Hn1 as (? & _ & ? & ? & _).
      * by apply Hscan.
    + rewrite (tryLastSuccessful_none _ _ _ _ Hlast) in *. cbn [app] in Hfail.
      by apply Hscan.
Qed.

(** An endpoint that resolves without a body, with no result before it
    and rejections after it, is the stored one when the loop has failed. *)
Lemma tryEndpoints_stored_without_body before e after hdrs s lastErr st :
  let req := λ e, statusRequest e hdrs s in
  allFailed (map req before) (requests st) = true →
  respond (requests st ++ map req before) (req e) = Resolved NoBody →
  allRejected (map req after) (requests st ++ map req (before ++ [e])) = true →
  ∃ err st2,
    tryEndpoints (before ++ e :: after) hdrs s lastErr st = (inr err, st2)
    ∧ lastSuccessfulEndpoint st2 = Some e.
Proof.
  intros req. revert lastErr st.
  induction before as [|b before IH]; intros lastErr st Hbefore He Hafter.
  - cbn [app map] in *. rewrite app_nil_r in He. rewrite tryEndpoints_cons.
    unfold axios. fold (req e). rewrite He. cbv beta iota zeta.
    match goal with |- context [tryEndpoints after ?h ?x ?le ?st1] =>
      destruct (tryEndpoints_allRejected after h x le st1 Hafter) as [err ->] end.
    by eexists _, _.
  - cbn [app map allFailed] in *. rewrite tryEndpoints_cons.
    unfold axios. fold (req b).
    destruct (respond (requests st) (req b)) as [[|?]|?]; [|done|]; cbv beta iota zeta.
    + apply IH.
      * exact Hbefore.
      * simpl. rewrite <- app_assoc. exact He.
      * simpl. rewrite <- app_assoc. exact Hafter.
    + apply IH.
      * exact Hbefore.
      * simpl. rewrite <- app_assoc. exact He.
      * simpl. rewrite <- app_assoc. exact Hafter.
Qed.

(** X25. On a call made while no endpoint is stored, when one endpoint of
    the list resolves without a body, those before it giving no result and
    those after it being rejected, the call takes the offline path, and yet
    that endpoint is what [lastSuccessfulEndpoint] holds afterwards: it is
    stored before its answer is read. *)
Theorem updateAppointmentStatus_stores_endpoint_without_body
    (id : string) (s : Status) (st : State)
    (before : list Endpoint) (e : Endpoint) (after : list Endpoint) :
  tokenMissing (localStorage st) = false →
  (10 ≤ Js.length (Js.trim id))%nat →
  lastSuccessfulEndpoint st = None →
  let req := λ e, statusRequest e (authHeader (localStorage st)) s in
  updateEndpoints (Js.trim id) = before ++ e :: after →
  allFailed (map req before) (requests st) = true →
  respond (requests st ++ map req before) (req e) = Resolved NoBody →
  allRejected (map req after) (requests st ++ map req (before ++ [e])) = true →
  ∃ mock st',
    updateAppointmentStatus id s st = (Returned (Some mock), st')
    ∧ status mock = s
    ∧ {| op_id := Js.trim id; op_status := s; op_timestamp := now st |}
        ∈ pendingOperations st'
    ∧ lastSuccessfulEndpoint st' = Some e.
Proof.
  intros Htok Hlen Hlast req Heps Hbefore He Hafter.
  rewrite updateAppointmentStatus_past_guards by done.
  rewrite (tryLastSuccessful_none _ _ _ _ Hlast), Heps.
  pose proof (tryEndpoints_networkOnly (before ++ e :: after)
                (authHeader (localStorage st)) s None st) as (Hq & _ & _ & _ & _ & Hnow & _).
  destruct (tryEndpoints_stored_without_body before e after
              (authHeader (localStorage st)) s None st Hbefore He Hafter)
    as (err & st2 & Heq & Hl).
  rewrite Heq in *. cbn [snd] in *.
  destruct (offlineFallback_spec (Js.trim id) s st2) as (Hs & _ & Hq' & _ & _ & Hlast').
  eexists _, _. split; [reflexivity|]. split_and!.
  - done.
  - rewrite Hq', Hnow. apply enqueued_entry.
  - by rewrite Hlast', Hl.
Qed.

Lemma callSyncPendingOperations_requests_le st :
  (length (requests (callSyncPendingOperations st)) ≤ length (requests st) + 1)%nat.
Proof.
  unfold callSyncPendingOperations. destruct (passRefused st); [lia|].
  destruct (sortByTimestamp _) as [|op rest]; simpl.
  - lia.
  - rewrite length_app. simpl. lia.
Qed.

Lemma offlineFallback_requests_le cleanId s st :
  (length (requests (offlineFallback cleanId s st).2) ≤ length (requests st) + 1)%nat.
Proof.
  unfold offlineFallback.
  assert (length (requests (addPendingOperation cleanId s st)) ≤ length (requests st) + 1)%nat
    as Hle.
  { unfold addPendingOperation. destruct (onLine _); [|simpl; lia].
    match goal with |- context [callSyncPendingOperations ?a] =>
      pose proof (callSyncPendingOperations_requests_le a) as H end.
    simpl in H. exact H. }
  set (st1 := addPendingOperation cleanId s st) in *. simpl.
  by destruct (readCachedAppointments _).
Qed.

(** X13. A call hands at most twelve requests to [axios]: one for the
    stored endpoint, ten for the endpoint list, and the first request of
    the pass that the offline path may start. *)
Theorem updateAppointmentStatus_is_bounded (id : string) (s : Status) (st : State) :
  (length (requests (updateAppointmentStatus id s st).2) ≤ length (requests st) + 12)%nat.
Proof.
  destruct (tokenMissing (localStorage st)) eqn:Htok.
  { unfold updateAppointmentStatus, updateAppointmentStatus_try. rewrite Htok. simpl. lia. }
  destruct (decide (Js.length (Js.trim id) < 10)%nat) as [Hshort|Hlen].
  { unfold updateAppointmentStatus, updateAppointmentStatus_try.
    rewrite Htok, guard_failed by done. simpl. lia. }
  rewrite updateAppointmentStatus_past_guards by (done || lia).
  assert (H1 : (length (requests (tryLastSuccessful (Js.trim id)
                   (authHeader (localStorage st)) s st).2) ≤ length (requests st) + 1)%nat).
  { unfold tryLastSuccessful. destruct (lastSuccessfulEndpoint st); [|simpl; lia].
    simpl. destruct (respond _ _) as [[|?]|?]; simpl; rewrite length_app; simpl; lia. }
  destruct (tryLastSuccessful _ _ _ _) as [[data|] st1]; cbn [snd] in *; [lia|].
  pose proof (tryEndpoints_requests_le (updateEndpoints (Js.trim id))
                (authHeader (localStorage st)) s None st1) as H2.
  change (length (updateEndpoints (Js.trim id))) with 10%nat in H2.
  destruct (tryEndpoints _ _ _ _ _) as [[data|err] st2]; cbn [snd] in *; [lia|].
  pose proof (offlineFallback_requests_le (Js.trim id) s st2). lia.
Qed.

(** ** The URL of the stored endpoint *)

Lemma noIdWithin_check (n : nat) (text : string) :
  noMatchBelow n (String.list_ascii_of_string text) = true → noIdWithin n text.
Proof.
  unfold noMatchBelow, noIdWithin. rewrite forallb_forall. intros H i Hi.
  specialize (H i). rewrite in_seq in H.
  eapply bool_decide_eq_true_1. apply H. lia.
Qed.

Lemma findId_None (seen s : list ascii) :
  (∀ i, (i ≤ length s)%nat → Js.matchIdAt (drop i s) = None) → Js.findId seen s = None.
Proof.
  revert seen. induction s as [|c s IH]; intros seen H.
  - simpl. done.
  - assert (H0 : Js.matchIdAt (c :: s) = None) by (apply (H 0%nat); simpl; lia).
    cbn [Js.findId]. rewrite H0. apply IH.
    intros i Hi. apply (H (S i)). simpl. lia.
Qed.

(** A text without a match of the identifier pattern is left as it is. *)
Lemma replaceId_no_match (text template : string) :
  noIdWithin (S (String.length text)) text → Js.replaceId text template = text.
Proof.
  intros H. unfold Js.replaceId. rewrite findId_None; [done|].
  intros i Hi. apply H. rewrite length_list_ascii in Hi. lia.
Qed.

Lemma matchIdAt_inner (old suffix : list ascii) :
  length old = 24%nat → forallb Js.isHexLower old = true →
  Js.matchIdAt ("/"%char :: old ++ "/"%char :: suffix) = Some 26%nat.
Proof.
  intros Hlen Hhex. unfold Js.matchIdAt.
  rewrite take_app_length' by done. rewrite drop_app_length' by done.
  rewrite Hhex, length_app, Hlen. done.
Qed.

(** On a URL in which the identifier is followed by ["/"] and more, the
    replacement takes that ["/"] away with the identifier. *)
Lemma replaceId_inner (prefix old suffix cleanId : string) :
  isObjectId old →
  noIdWithin (String.length prefix) (prefix +:+ "/" +:+ old +:+ "/" +:+ suffix) →
  noDollar cleanId →
  Js.replaceId (prefix +:+ "/" +:+ old +:+ "/" +:+ suffix) ("/" +:+ cleanId)
  = prefix +:+ "/" +:+ cleanId +:+ suffix.
Proof.
  intros [Hlen Hhex] Hno Hd. unfold Js.replaceId, noIdWithin, noDollar in *.
  rewrite !list_ascii_app in *.
  change (String.list_ascii_of_string "/") with ["/"%char] in *.
  assert (Hl : length (String.list_ascii_of_string old) = 24%nat)
    by (by rewrite length_list_ascii).
  remember (String.list_ascii_of_string old) as o eqn:Ho.
  remember (String.list_ascii_of_string cleanId) as n eqn:Hn.
  remember (String.list_ascii_of_string prefix) as q eqn:Hq.
  remember (String.list_ascii_of_string suffix) as x eqn:Hx.
  rewrite findId_skip.
  - change (["/"%char] ++ o ++ ["/"%char] ++ x) with ("/"%char :: o ++ "/"%char :: x).
    assert (Hm := matchIdAt_inner o x Hl Hhex).
    cbn [Js.findId]. rewrite Hm.
    change (take 26 ("/"%char :: o ++ "/"%char :: x))
      with ("/"%char :: take 25 (o ++ "/"%char :: x)).
    change (drop 26 ("/"%char :: o ++ "/"%char :: x))
      with (drop 25 (o ++ "/"%char :: x)).
    replace (drop 25 (o ++ "/"%char :: x)) with x.
    2: { rewrite drop_app_ge by lia. rewrite Hl. done. }
    rewrite getSubstitution_plain.
    + rewrite app_nil_r, rev_involutive.
      rewrite string_of_list_app. subst q.
      rewrite String.string_of_list_ascii_of_string.
      change (["/"%char] ++ n) with ("/"%char :: n).
      change (("/"%char :: n) ++ x) with ("/"%char :: (n ++ x)).
      cbn [String.string_of_list_ascii]. rewrite string_of_list_app.
      subst n. rewrite String.string_of_list_ascii_of_string.
      rewrite Hx. by rewrite String.string_of_list_ascii_of_string.
    + intros [?|?]%elem_of_cons; [done|]. by apply Hd.
  - intros i Hi. apply Hno. subst q. by rewrite <- length_list_ascii.
Qed.

(** The first request of a call past the guards when an endpoint is
    stored. *)
Lemma updateAppointmentStatus_first_request id s st last :
  tokenMissing (localStorage st) = false →
  (10 ≤ Js.length (Js.trim id))%nat →
  lastSuccessfulEndpoint st = Some last →
  ∃ more,
    requests (updateAppointmentStatus id s st).2
    = requests st
      ++ statusRequest {| url := Js.replaceId (url last) ("/" +:+ Js.trim id);
                          method := method last |} (authHeader (localStorage st)) s
      :: more.
Proof.
  intros Htok Hlen Hlast. rewrite updateAppointmentStatus_past_guards by done.
  rewrite (tryLastSuccessful_some _ _ _ _ last Hlast). cbv zeta.
  set (first := statusRequest _ _ _).
  set (st1 := set_requests (requests st ++ [first]) st).
  assert (Hgrow : ∀ st', (∃ more, requests st' = requests st1 ++ more) →
                         ∃ more, requests st' = requests st ++ first :: more).
  { intros st' [more ->]. exists more. simpl. by rewrite <- app_assoc. }
  destruct (respond (requests st) first) as [[|data]|error].
  2: { apply Hgrow. exists []. cbn [snd]. by rewrite app_nil_r. }
  all: pose proof (tryEndpoints_networkOnly (updateEndpoints (Js.trim id))
                     (authHeader (localStorage st)) s None st1) as Hn.
  all: destruct (tryEndpoints _ _ _ _ _) as [[data|err] st2]; cbn [snd] in *.
  all: try (apply Hgrow; by destruct Hn as (_&_&_&_&_&_&_&Hm)).
  all: apply Hgrow; destruct Hn as (_&_&_&_&_&_&_&[m1 Hm1]).
  all: destruct (offlineFallback_requests (Js.trim id) s st2) as [m2 Hm2].
  all: exists (m1 ++ m2); rewrite Hm2, Hm1; by rewrite <- app_assoc.
Qed.

(** X14. When the URL of the stored endpoint has no match of the identifier
    pattern, as the query forms of the endpoint list have none, the first
    request of a call goes to that URL as it is stored, whatever the
    identifier of the call: it names the appointment of the earlier call. *)
Theorem updateAppointmentStatus_asks_stored_url_unchanged
    (id : string) (s : Status) (st : State) (last : Endpoint) :
  tokenMissing (localStorage st) = false →
  (10 ≤ Js.length (Js.trim id))%nat →
  lastSuccessfulEndpoint st = Some last →
  noIdWithin (S (String.length (url last))) (url last) →
  ∃ more,
    requests (updateAppointmentStatus id s st).2
    = requests st ++ statusRequest last (authHeader (localStorage st)) s :: more.
Proof.
  intros Htok Hlen Hlast Hno.
  destruct (updateAppointmentStatus_first_request id s st last Htok Hlen Hlast) as [more Hm].
  exists more. rewrite Hm, replaceId_no_match by done. by destruct last.
Qed.

(** X15. When the URL of the stored endpoint has the identifier followed by
    ["/"] and a suffix, as the second endpoint of
    [syncAppointmentToDatabase] has, the first request of a call goes to a
    URL in which the new identifier runs into the suffix: the ["/"] between
    them is gone. *)
Theorem updateAppointmentStatus_loses_the_slash
    (id : string) (s : Status) (st : State) (last : Endpoint)
    (prefix old suffix : string) :
  tokenMissing (localStorage st) = false →
  (10 ≤ Js.length (Js.trim id))%nat →
  lastSuccessfulEndpoint st = Some last →
  url last = prefix +:+ "/" +:+ old +:+ "/" +:+ suffix →
  isObjectId old →
  noIdWithin (String.length prefix) (url last) →
  noDollar (Js.trim id) →
  ∃ more,
    requests (updateAppointmentStatus id s st).2
    = requests st
      ++ statusRequest {| url := prefix +:+ "/" +:+ Js.trim id +:+ suffix;
                          method := method last |} (authHeader (localStorage st)) s
      :: more.
Proof.
  intros Htok Hlen Hlast Hurl Hold Hno Hd.
  destruct (updateAppointmentStatus_first_request id s st last Htok Hlen Hlast) as [more Hm].
  exists more. rewrite Hm. rewrite Hurl in *. by rewrite replaceId_inner.
Qed.

(** X16. [syncAppointmentToDatabase] throws exactly when none of its five
    endpoints answers with a body, each being rejected or resolving
    without one; it has then asked each once, in order, and
    [lastSuccessfulEndpoint] is as before when all five were rejected and
    one of the five otherwise. When it returns, [lastSuccessfulEndpoint] is
    one of its five endpoints for the trimmed identifier. *)
Theorem syncAppointmentToDatabase_outcome (id : string) (s : Status) (st : State) :
  let reqs := map (λ e, statusRequest e (authHeader (localStorage st)) s)
                (syncEndpoints (Js.trim id)) in
  match syncAppointmentToDatabase id s st with
  | (inl _, st') =>
      allFailed reqs (requests st) = false
      ∧ ∃ e, e ∈ syncEndpoints (Js.trim id) ∧ lastSuccessfulEndpoint st' = Some e
  | (inr _, st') =>
      allFailed reqs (requests st) = true
      ∧ requests st' = requests st ++ reqs
      ∧ length reqs = 5%nat
      ∧ (if allRejected reqs (requests st)
         then lastSuccessfulEndpoint st' = lastSuccessfulEndpoint st
         else ∃ e, e ∈ syncEndpoints (Js.trim id) ∧ lastSuccessfulEndpoint st' = Some e)
  end.
Proof.
  intros reqs. unfold syncAppointmentToDatabase.
  pose proof (tryEndpoints_outcome (syncEndpoints (Js.trim id))
                (authHeader (localStorage st)) s None st) as H.
  destruct (tryEndpoints _ _ _ _ _) as [[data|err] st']; [done|].
  destruct H as (H1 & H2 & H3). done.
Qed.


(** ** The appointment list *)

(** X18. The cancel control never comes back: an appointment that can be
    cancelled at some time could be cancelled at every earlier time, is not
    cancelled, and lies at or after that time. *)
Theorem canCancel_never_reopens (a : Appointment) (time time' : Z) :
  time <= time' →
  canCancel a time' = true →
  canCancel a time = true ∧ time' <= date a ∧ status a ≠ cancelled.
Proof.
  unfold canCancel, isCancellable. intros Hle [Hs Hc]%andb_true_iff.
  rewrite Hs. simpl.
  apply negb_true_iff, bool_decide_eq_false in Hs.
  destruct (Z.ltb_spec (date a) time') as [|Hd]; [done|].
  destruct (Z.ltb_spec (date a) time) as [|_]; [lia|].
  destruct (0 <? CANCELLATION_WINDOW_HOURS); [|done].
  apply Z.ltb_lt in Hc. split_and!; [|done|done]. apply Z.ltb_lt. lia.
Qed.

Lemma markCancelled_status id time l a :
  a ∈ markCancelled id time l → _id a = id → status a = cancelled.
Proof.
  unfold markCancelled. intros (b & -> & Hb)%list_elem_of_fmap.
  by case_bool_decide.
Qed.

Lemma guard_messages_are_not_no_response :
  JsText.includes "Request failed: Your session has expired. Please sign in again."
    "No response received" = false
  ∧ JsText.includes "Request failed: Invalid appointment ID" "No response received" = false.
Proof. split; reflexivity. Qed.

(** X19. When the call throws (no token, or an identifier too short), the
    service state is untouched; on line the list is left and
    [cannotCancel] is set; off line the list nonetheless marks the
    appointment cancelled, though nothing was sent, queued or cached. *)
Theorem cancelFromList_after_a_thrown_error (id : string) (v : ListView) (st : State) :
  tokenMissing (localStorage st) = true ∨ (Js.length (Js.trim id) < 10)%nat →
  cancelFromList id v st
  = (if onLine st
     then {| shown := shown v; cannotCancel := true |}
     else {| shown := markCancelled id (now st) (shown v); cannotCancel := cannotCancel v |},
     st).
Proof.
  intros H. destruct guard_messages_are_not_no_response as [H1 H2].
  unfold cancelFromList, updateAppointmentStatus, updateAppointmentStatus_try.
  destruct (tokenMissing (localStorage st)).
  - cbv beta iota zeta. unfold updateAppointmentStatus_catch. cbv beta iota zeta.
    change ("Request failed: " +:+ "Your session has expired. Please sign in again.")
      with "Request failed: Your session has expired. Please sign in again.".
    rewrite H1. by destruct (onLine st).
  - destruct H as [H|H]; [done|]. rewrite guard_failed by done.
    cbv beta iota zeta. unfold updateAppointmentStatus_catch. cbv beta iota zeta.
    change ("Request failed: " +:+ "Invalid appointment ID")
      with "Request failed: Invalid appointment ID".
    rewrite H2. by destruct (onLine st).
Qed.

(** X20. When the call takes the offline path, the list shown afterwards
    is the list shown before with the mock appointment that the call
    returned, which is cancelled, in the place of every appointment whose
    identifier is the one given, the others as they were; [cannotCancel] is
    cleared, and the state is the one the call left. *)
Theorem cancelFromList_on_the_offline_path (id : string) (v : ListView) (st : State) :
  tokenMissing (localStorage st) = false →
  (10 ≤ Js.length (Js.trim id))%nat →
  allRejected (attempts id cancelled st) (requests st) = true →
  ∃ mock st',
    updateAppointmentStatus id cancelled st = (Returned (Some mock), st')
    ∧ status mock = cancelled
    ∧ cancelFromList id v st
      = ({| shown := map (λ appt, if bool_decide (_id appt = id) then mock else appt)
                       (shown v);
            cannotCancel := false |}, st').
Proof.
  intros Htok Hlen Hrej. unfold cancelFromList.
  rewrite updateAppointmentStatus_all_rejected by done.
  set (st2 := set_requests (requests st ++ attempts id cancelled st) st).
  destruct (offlineFallback_spec (Js.trim id) cancelled st2) as (Hs & _).
  eexists _, _. split_and!; [reflexivity|exact Hs|reflexivity].
Qed.

(** What the loop of the endpoint test leaves. *)
Lemma testEndpoints_frame eps successes p :
  let r := testEndpoints eps successes p in
  requests (service r.2)
  = requests (service p)
    ++ map (λ e, statusRequest e (authHeader (localStorage (service p))) cancelled) eps
  ∧ pendingOperations (service r.2) = pendingOperations (service p)
  ∧ localStorage (service r.2) = localStorage (service p)
  ∧ now (service r.2) = now (service p)
  ∧ listed r.2 = listed p.
Proof.
  revert successes p. induction eps as [|e eps IH]; intros successes p.
  - simpl. by rewrite app_nil_r.
  - cbn [testEndpoints]. unfold axios. cbv beta iota zeta.
    destruct (respond _ _) as [data|error].
    + cbv zeta.
      match goal with |- context [testEndpoints eps ?sc ?q] =>
        destruct (IH sc q) as (Hr & Hq & Hl & Hn & Hv) end.
      rewrite Hr, Hq, Hl, Hn, Hv.
      destruct (length (successes ++ [e]) =? 1)%nat; simpl;
        by rewrite <- app_assoc.
    + match goal with |- context [testEndpoints eps ?sc ?q] =>
        destruct (IH sc q) as (Hr & Hq & Hl & Hn & Hv) end.
      rewrite Hr, Hq, Hl, Hn, Hv. simpl. by rewrite <- app_assoc.
Qed.

Lemma testEndpoints_allRejected eps successes p :
  allRejected
    (map (λ e, statusRequest e (authHeader (localStorage (service p))) cancelled) eps)
    (requests (service p)) = true →
  (testEndpoints eps successes p).1 = successes
  ∧ lastSuccessfulEndpoint (service (testEndpoints eps successes p).2)
    = lastSuccessfulEndpoint (service p)
  ∧ successfulAppointmentEndpoint (testEndpoints eps successes p).2
    = successfulAppointmentEndpoint p.
Proof.
  revert p. induction eps as [|e eps IH]; intros p; [done|].
  cbn [testEndpoints map allRejected]. unfold axios. cbv beta iota zeta.
  destruct (respond _ _) as [data|error]; [done|]. intros Hrej.
  destruct (IH (set_service
                  (set_requests
                     (requests (service p) ++
                        [statusRequest e (authHeader (localStorage (service p))) cancelled])
                     (service p)) p) Hrej) as (H1 & H2 & H3).
  done.
Qed.

Lemma cacheCancelled_frame cleanId st :
  pendingOperations (cacheCancelled cleanId st) = pendingOperations st
  ∧ requests (cacheCancelled cleanId st) = requests st.
Proof. unfold cacheCancelled. by destruct (readCachedAppointments _). Qed.

(** X21. Without a usable stored endpoint, the endpoint test sends the
    cancellation to all ten endpoints, in order, whatever they answer: an
    endpoint that accepts it does not end the loop. *)
Theorem testCancellation_asks_every_endpoint
    (a : Appointment) (VITE_API_URL : option string) (p : Page) :
  getStoredEndpoint (successfulAppointmentEndpoint p) = None →
  let eps := endpointVariations (orElse VITE_API_URL "http://localhost:5000/api")
               (Js.trim (_id a)) in
  requests (service (testCancellation (Some a) VITE_API_URL p))
  = requests (service p)
    ++ map (λ e, statusRequest e (authHeader (localStorage (service p))) cancelled) eps
  ∧ length eps = 10%nat.
Proof.
  intros Hstored eps. split; [|done].
  unfold testCancellation, testStoredEndpoint. rewrite Hstored.
  fold eps.
  pose proof (testEndpoints_frame eps [] (set_service (service p) p)) as (Hr & _).
  destruct (testEndpoints eps [] (set_service (service p) p)) as [successes p2].
  cbn [fst snd service set_service] in Hr.
  destruct (0 <? length successes)%nat; cbn [service set_service set_listed].
  - destruct (cacheCancelled_frame (Js.trim (_id a)) (service p2)) as (_ & ->). exact Hr.
  - exact Hr.
Qed.

Lemma testStoredEndpoint_frame cleanId p :
  pendingOperations (testStoredEndpoint cleanId p).2 = pendingOperations (service p)
  ∧ localStorage (testStoredEndpoint cleanId p).2 = localStorage (service p)
  ∧ lastSuccessfulEndpoint (testStoredEndpoint cleanId p).2
    = lastSuccessfulEndpoint (service p).
Proof.
  unfold testStoredEndpoint. destruct (getStoredEndpoint _); [|done].
  unfold axios. cbv beta iota zeta. by destruct (respond _ _).
Qed.

(** X22. The endpoint test never queues an operation, and whatever the
    endpoints answer the page ends up listing the appointment as
    cancelled. *)
Theorem testCancellation_lists_cancelled_without_queueing
    (a : Appointment) (VITE_API_URL : option string) (p : Page) :
  let p' := testCancellation (Some a) VITE_API_URL p in
  pendingOperations (service p') = pendingOperations (service p)
  ∧ length (listed p') = length (listed p)
  ∧ ∀ x, x ∈ listed p' → _id x = Js.trim (_id a) → status x = cancelled.
Proof.
  intros p'. unfold p', testCancellation.
  destruct (testStoredEndpoint_frame (Js.trim (_id a)) p) as (Hq & _).
  destruct (testStoredEndpoint (Js.trim (_id a)) p) as [[|] st1]; cbn [snd] in Hq.
  - cbn [service listed set_service set_listed].
    destruct (cacheCancelled_frame (Js.trim (_id a)) st1) as (-> & _).
    split_and!; [done|by unfold markCancelled; rewrite length_map|].
    intros x. apply markCancelled_status.
  - match goal with |- context [testEndpoints ?eps [] ?q] =>
      pose proof (testEndpoints_frame eps [] q) as (_ & Hq2 & _ & _ & Hv);
      destruct (testEndpoints eps [] q) as [successes p2] end.
    cbn [fst snd service listed set_service] in Hq2, Hv.
    assert (Hlisted : ∀ x, x ∈ markCancelled (Js.trim (_id a)) (now (service p2)) (listed p2) →
                           _id x = Js.trim (_id a) → status x = cancelled)
      by (intros x; apply markCancelled_status).
    destruct (0 <? length successes)%nat; cbn [service listed set_service set_listed].
    + destruct (cacheCancelled_frame (Js.trim (_id a)) (service p2)) as (-> & _).
      split_and!; [congruence|by unfold markCancelled; rewrite length_map, Hv|done].
    + split_and!; [congruence|by unfold markCancelled; rewrite length_map, Hv|done].
Qed.

(** X23. When there is no usable stored endpoint and all ten endpoints
    reject, the endpoint test leaves the whole [localStorage], the cached
    appointments included, and both records of a working endpoint as they
    were: the cancellation it shows is kept nowhere. *)
Theorem testCancellation_all_rejected_keeps_nothing
    (a : Appointment) (VITE_API_URL : option string) (p : Page) :
  getStoredEndpoint (successfulAppointmentEndpoint p) = None →
  allRejected
    (map (λ e, statusRequest e (authHeader (localStorage (service p))) cancelled)
       (endpointVariations (orElse VITE_API_URL "http://localhost:5000/api")
          (Js.trim (_id a))))
    (requests (service p)) = true →
  let p' := testCancellation (Some a) VITE_API_URL p in
  localStorage (service p') = localStorage (service p)
  ∧ pendingOperations (service p') = pendingOperations (service p)
  ∧ lastSuccessfulEndpoint (service p') = lastSuccessfulEndpoint (service p)
  ∧ successfulAppointmentEndpoint p' = successfulAppointmentEndpoint p
  ∧ listed p' = markCancelled (Js.trim (_id a)) (now (service p)) (listed p).
Proof.
  intros Hstored Hrej p'. unfold p', testCancellation, testStoredEndpoint.
  rewrite Hstored.
  match goal with |- context [testEndpoints ?eps [] ?q] =>
    pose proof (testEndpoints_frame eps [] q) as (_ & Hq & Hl & Hn & Hv);
    pose proof (testEndpoints_allRejected eps [] q Hrej) as (Hs & He & Hk);
    destruct (testEndpoints eps [] q) as [successes p2] end.
  cbn [fst snd service listed set_service successfulAppointmentEndpoint] in *.
  subst successes. cbn [length Nat.ltb Nat.leb].
  cbn [service listed set_listed successfulAppointmentEndpoint].
  by rewrite Hl, Hq, He, Hk, Hv, Hn.
Qed.

End Further.

(** * The further statements at sample inputs *)

Lemma sortByTimestamp_keeps_time_order_witness :
  sortByTimestamp [opA; opB; opC] = [opA; opB; opC].
Proof.
  apply sortByTimestamp_keeps_time_order.
  change [opA; opB; opC] with (sortByTimestamp [opB; opA; opC]).
  apply sortByTimestamp_oldestFirst.
Defined.

Lemma syncPendingOperations_is_bounded_witness :
  let st' := syncPendingOperations (env := unreachable) queuedBAC in
  isProcessing st' = false ∧ (length (requests st') ≤ 0 + 5 * 3)%nat.
Proof.
  apply (syncPendingOperations_is_bounded (env := unreachable) queuedBAC). reflexivity.
Defined.


Lemma syncPendingOperations_request_by_request_witness :
  let env := answersOnly "http://localhost:5000/api/appointments/64b7f0c2a1d3e4f5a6b7c8d9"
               cancelled idA in
  settles (env := env) 15 (callSyncPendingOperations (env := env) queuedBAC)
  = syncPendingOperations (env := env) queuedBAC
  ∧ passes (settles (env := env) 15 (callSyncPendingOperations (env := env) queuedBAC)) = [].
Proof.
  intros env.
  apply (syncPendingOperations_request_by_request (env := env) queuedBAC 15).
  - reflexivity.
  - vm_compute. lia.
Defined.

Lemma service_keeps_one_operation_per_identifier_witness :
  uniqueIds
    (run (env := unreachable)
       [Enqueue idA confirmed; UpdateStatus idB cancelled; TriggerSync; Settle; Settle]
       queuedBAC).
Proof.
  apply (service_keeps_one_operation_per_identifier (env := unreachable)).
  apply (bool_decide_unpack _). vm_compute. reflexivity.
Defined.

Lemma offline_mock_has_the_identifier_witness :
  ∃ mock st',
    updateAppointmentStatus (env := unreachable) " 64b7f0c2a1d3e4f5a6b7c8d9 " cancelled
      (run (env := unreachable) [UpdateStatus idA confirmed] (cachedA pending false))
    = (Returned (Some mock), st')
    ∧ _id mock = idA ∧ status mock = cancelled.
Proof.
  destruct (offline_mock_has_the_identifier (env := unreachable)
              {| token := Some "jwt"; pendingAppointmentOperations := None;
                 cachedAppointments := Some (Json [appt idA pending; appt idB pending]) |}
              false 100 [UpdateStatus idA confirmed]
              " 64b7f0c2a1d3e4f5a6b7c8d9 " cancelled)
    as (_ & mock & st' & Hres & Hid & Hs & _).
  - apply Forall_cons_2; [|apply Forall_nil_2].
    unfold updatesOwnKey. apply (bool_decide_unpack _). vm_compute. reflexivity.
  - apply (bool_decide_unpack _). vm_compute. reflexivity.
  - reflexivity.
  - vm_compute. lia.
  - vm_compute. reflexivity.
  - exists mock, st'. split_and!; [exact Hres|exact Hid|exact Hs].
Defined.

Lemma updateAppointmentStatus_success_writes_nothing_witness :
  let env := answersOnly
               "http://localhost:5000/api/appointments/status/64b7f0c2a1d3e4f5a6b7c8da"
               cancelled idB in
  ∃ st',
    updateAppointmentStatus (env := env) idB cancelled (cachedA confirmed true)
    = (Returned (Some (appt idB cancelled)), st')
    ∧ pendingOperations st' = []
    ∧ localStorage st' = localStorage (cachedA confirmed true)
    ∧ length (requests st') = 2%nat.
Proof.
  intros env.
  destruct (updateAppointmentStatus_success_writes_nothing (env := env)
              idB cancelled (cachedA confirmed true)
              (take 1 (attempts (env := env) idB cancelled (cachedA confirmed true)))
              (statusRequest
                 {| url := "http://localhost:5000/api/appointments/status/64b7f0c2a1d3e4f5a6b7c8da";
                    method := "PUT" |} [("Authorization", "Bearer jwt")] cancelled)
              (drop 2 (attempts (env := env) idB cancelled (cachedA confirmed true)))
              (Some (appt idB cancelled)))
    as (st' & Hres & (Hq & _ & _ & Hl & _) & Hreq).
  - reflexivity.
  - vm_compute. lia.
  - vm_compute. reflexivity.
  - vm_compute. reflexivity.
  - vm_compute. reflexivity.
  - exists st'. split_and!; [exact Hres|exact Hq|exact Hl|by rewrite Hreq].
Defined.

Lemma updateAppointmentStatus_queues_exactly_without_result_witness :
  let offline := updateAppointmentStatus (env := unreachable) idA cancelled
                   (cachedA confirmed false) in
  let env := answersOnly
               "http://localhost:5000/api/appointments/status/64b7f0c2a1d3e4f5a6b7c8d9"
               cancelled idA in
  let answered := updateAppointmentStatus (env := env) idA cancelled (cachedA confirmed false) in
  ((∃ mock, offline.1 = Returned (Some mock) ∧ status mock = cancelled)
   ∧ pendingOperations offline.2
     = [{| op_id := idA; op_status := cancelled; op_timestamp := 100 |}])
  ∧ pendingOperations answered.2 = []
  ∧ localStorage answered.2 = localStorage (cachedA confirmed false).
Proof.
  intros offline env answered. split.
  - pose proof (updateAppointmentStatus_queues_exactly_without_result (env := unreachable)
                  idA cancelled (cachedA confirmed false)) as H.
    cbv zeta in H.
    replace (allFailed (env := unreachable)
               (attempts (env := unreachable) idA cancelled (cachedA confirmed false))
               (requests (cachedA confirmed false)))
      with true in H by (vm_compute; reflexivity).
    destruct H as [Hmock Hq].
    + reflexivity.
    + vm_compute. lia.
    + split; [exact Hmock|]. unfold offline. rewrite Hq. vm_compute. reflexivity.
  - pose proof (updateAppointmentStatus_queues_exactly_without_result (env := env)
                  idA cancelled (cachedA confirmed false)) as H.
    cbv zeta in H.
    replace (allFailed (env := env)
               (attempts (env := env) idA cancelled (cachedA confirmed false))
               (requests (cachedA confirmed false)))
      with false in H by (vm_compute; reflexivity).
    destruct H as (Hq & Hl & _).
    + reflexivity.
    + vm_compute. lia.
    + split; [exact Hq|exact Hl].
Defined.

Lemma updateAppointmentStatus_stores_endpoint_without_body_witness :
  let env := withoutBody "http://localhost:5000/api/appointment/64b7f0c2a1d3e4f5a6b7c8da" in
  ∃ mock st',
    updateAppointmentStatus (env := env) idB cancelled (cachedA confirmed false)
    = (Returned (Some mock), st')
    ∧ {| op_id := idB; op_status := cancelled; op_timestamp := 100 |} ∈ pendingOperations st'
    ∧ lastSuccessfulEndpoint st'
      = Some {| url := "http://localhost:5000/api/appointment/64b7f0c2a1d3e4f5a6b7c8da";
                method := "PATCH" |}.
Proof.
  intros env.
  destruct (updateAppointmentStatus_stores_endpoint_without_body (env := env)
              idB cancelled (cachedA confirmed false)
              (take 2 (updateEndpoints (env := env) idB))
              {| url := "http://localhost:5000/api/appointment/64b7f0c2a1d3e4f5a6b7c8da";
                 method := "PATCH" |}
              (drop 3 (updateEndpoints (env := env) idB)))
    as (mock & st' & Hres & _ & Hq & Hl).
  - reflexivity.
  - vm_compute. lia.
  - reflexivity.
  - reflexivity.
  - vm_compute. reflexivity.
  - vm_compute. reflexivity.
  - vm_compute. reflexivity.
  - exists mock, st'. split_and!; [exact Hres|exact Hq|exact Hl].
Defined.

Lemma updateAppointmentStatus_asks_stored_url_unchanged_witness :
  ∃ more,
    requests (updateAppointmentStatus (env := unreachable) idB cancelled
                (resolvedOn queryA false)).2
    = [] ++ statusRequest queryA [("Authorization", "Bearer jwt")] cancelled :: more.
Proof.
  apply (updateAppointmentStatus_asks_stored_url_unchanged (env := unreachable)
           idB cancelled (resolvedOn queryA false) queryA).
  - reflexivity.
  - vm_compute. lia.
  - reflexivity.
  - apply noIdWithin_check. vm_compute. reflexivity.
Defined.

Lemma updateAppointmentStatus_loses_the_slash_witness :
  ∃ more,
    requests (updateAppointmentStatus (env := unreachable) idB cancelled
                (resolvedOn putAStatus false)).2
    = [] ++ statusRequest
              {| url := "http://localhost:5000/api/appointments/64b7f0c2a1d3e4f5a6b7c8dastatus";
                 method := "PUT" |} [("Authorization", "Bearer jwt")] cancelled :: more.
Proof.
  apply (updateAppointmentStatus_loses_the_slash (env := unreachable)
           idB cancelled (resolvedOn putAStatus false) putAStatus
           "http://localhost:5000/api/appointments" idA "status").
  - reflexivity.
  - vm_compute. lia.
  - reflexivity.
  - reflexivity.
  - split; reflexivity.
  - apply noIdWithin_check. vm_compute. reflexivity.
  - unfold noDollar. apply (bool_decide_unpack _). vm_compute. reflexivity.
Defined.


Lemma canCancel_never_reopens_witness :
  canCancel (env := unreachable) (farAppt confirmed) 50 = true
  ∧ 100 <= date (farAppt confirmed)
  ∧ status (farAppt confirmed) ≠ cancelled.
Proof.
  apply (canCancel_never_reopens (env := unreachable) (farAppt confirmed) 50 100).
  - lia.
  - reflexivity.
Defined.

Lemma cancelFromList_after_a_thrown_error_witness :
  let st := initialState signedOut false 100 in
  let v := {| shown := [appt idA confirmed]; cannotCancel := false |} in
  cancelFromList (env := unreachable) idA v st
  = ({| shown := [withStatus (appt idA confirmed) cancelled 100]; cannotCancel := false |}, st)
  ∧ pendingOperations st = [].
Proof.
  intros st v. split; [|reflexivity].
  rewrite (cancelFromList_after_a_thrown_error (env := unreachable) idA v st).
  - reflexivity.
  - left. reflexivity.
Defined.

Lemma cancelFromList_on_the_offline_path_witness :
  let v := {| shown := [appt idA confirmed; appt idB pending]; cannotCancel := true |} in
  ∃ mock st',
    status mock = cancelled
    ∧ cancelFromList (env := unreachable) idA v (cachedA confirmed false)
      = ({| shown := [mock; appt idB pending]; cannotCancel := false |}, st').
Proof.
  intros v.
  destruct (cancelFromList_on_the_offline_path (env := unreachable) idA v
              (cachedA confirmed false))
    as (mock & st' & _ & Hs & Hview).
  - reflexivity.
  - vm_compute. lia.
  - vm_compute. reflexivity.
  - exists mock, st'. split; [exact Hs|exact Hview].
Defined.

Lemma testCancellation_asks_every_endpoint_witness :
  length (requests (service (testCancellation (env := accepting) (Some (appt idA confirmed))
                               None (testPage (cachedA confirmed true)))))
  = 10%nat.
Proof.
  destruct (testCancellation_asks_every_endpoint (env := accepting) (appt idA confirmed)
              None (testPage (cachedA confirmed true)))
    as [Hr Hlen].
  - reflexivity.
  - rewrite Hr, length_app, length_map, Hlen. reflexivity.
Defined.

Lemma testCancellation_all_rejected_keeps_nothing_witness :
  let p := testPage (cachedA confirmed false) in
  let p' := testCancellation (env := unreachable) (Some (appt idA confirmed)) None p in
  localStorage (service p') = localStorage (service p)
  ∧ pendingOperations (service p') = []
  ∧ listed p' = [withStatus (appt idA confirmed) cancelled 100; appt idB pending].
Proof.
  intros p p'.
  destruct (testCancellation_all_rejected_keeps_nothing (env := unreachable)
              (appt idA confirmed) None p)
    as (Hl & Hq & _ & _ & Hv).
  - reflexivity.
  - vm_compute. reflexivity.
  - fold p' in Hl, Hq, Hv. split_and!; [exact Hl|exact Hq|exact Hv].
Defined.
